(** * Public transport route optimisation: the graph model, its validator
      and the multi-criteria shortest-path search of [app.py]

    The development embeds the three algorithmic functions of [app.py]
    ([build_transport_graph], [validate_graph], [multi_criteria_dijkstra])
    together with the parts of [networkx.Graph] and [heapq] they call, and
    proves the properties the specification states about them.

    Conventions of the embedding:
    - stops are Python [str] values, modelled as [string] (byte strings; the
      byte-wise lexicographic order of UTF-8 text coincides with Python's
      code-point order);
    - edge attributes, [alpha] and [beta] are Python [int]s, modelled as [Z];
    - a Python [dict] is an insertion-ordered association list with
      first-match lookup, since [networkx] exposes the iteration order of its
      adjacency dictionaries;
    - the [visited] set is a [gset string];
    - an exception is a value of type [exn], a call returns [result];
    - the [while] loop is a fixpoint on a number of remaining iterations,
      [None] meaning that the allowance ran out before the loop ended. *)

From Stdlib Require Import ZArith String List OrderedTypeEx DecimalString.
From stdpp Require Import base tactics option list gmap strings.

Local Open Scope Z_scope.

(** ** Python dictionaries *)

Module Dict.

Definition t (V : Type) : Type := list (string * V).

(** [d.get(k)] / [d[k]]: the value bound to [k], if any. *)
Fixpoint get {V} (k : string) (d : t V) : option V :=
  match d with
  | [] => None
  | (k', v) :: d' => if String.eqb k k' then Some v else get k d'
  end.

(** [k in d]. *)
Definition mem {V} (k : string) (d : t V) : bool :=
  match get k d with Some _ => true | None => false end.

(** [d[k] = v]: overwrite in place, or append a new key at the end. *)
Fixpoint set {V} (k : string) (v : V) (d : t V) : t V :=
  match d with
  | [] => [(k, v)]
  | (k', v') :: d' =>
      if String.eqb k k' then (k', v) :: d' else (k', v') :: set k v d'
  end.

(** [d.update(other)]. *)
Definition update {V} (other : t V) (d : t V) : t V :=
  fold_left (fun acc kv => set (fst kv) (snd kv) acc) other d.

(** Iterating a dictionary yields its keys in insertion order. *)
Definition keys {V} (d : t V) : list string := map fst d.

End Dict.

(** ** The part of [networkx.Graph] the program uses *)

(** A stop is identified by its name. *)
Abbreviation Stop := string (only parsing).

(** The attribute dictionary of an edge: attribute name to integer. *)
Definition EdgeData : Type := Dict.t Z.

(** [Graph._adj]: stop -> (neighbour -> edge data).  The node dictionary
    [Graph._node] has the same keys, so the stops are the keys of [adj]. *)
Record Graph : Type := { adj : Dict.t (Dict.t EdgeData) }.

(** [nx.Graph()] *)
Definition empty_graph : Graph := {| adj := [] |}.

(** [list(G.nodes)] *)
Definition nodes (g : Graph) : list Stop := Dict.keys (adj g).

(** [n in G] *)
Definition has_node (g : Graph) (n : Stop) : bool := Dict.mem n (adj g).

(** Exceptions the modelled code can raise. *)
Inductive exn : Type :=
| NetworkXError (n : Stop)   (* "The node n is not in the graph." *)
| KeyError (k : string).

(** Creating a stop: a new stop gets an empty adjacency, an existing one
    is left as it is. *)
Definition ensure_node (n : Stop) (a : Dict.t (Dict.t EdgeData))
  : Dict.t (Dict.t EdgeData) :=
  if Dict.mem n a then a else Dict.set n [] a.

(** [G.add_node(n)] *)
Definition add_node (g : Graph) (n : Stop) : Graph :=
  {| adj := ensure_node n (adj g) |}.

Definition adj_of (a : Dict.t (Dict.t EdgeData)) (n : Stop) : Dict.t EdgeData :=
  match Dict.get n a with Some nbrs => nbrs | None => [] end.

(** [G.add_edge(u, v, **attr)]: creates the end points when absent, merges
    [attr] into the data of the edge when it exists, and stores the data in
    both directions. *)
Definition add_edge (g : Graph) (u v : Stop) (attr : EdgeData) : Graph :=
  let a1 := ensure_node u (adj g) in
  let a2 := ensure_node v a1 in
  let datadict :=
    Dict.update attr
      (match Dict.get v (adj_of a2 u) with Some dd => dd | None => [] end) in
  let a3 := Dict.set u (Dict.set v datadict (adj_of a2 u)) a2 in
  let a4 := Dict.set v (Dict.set u datadict (adj_of a3 v)) a3 in
  {| adj := a4 |}.

(** [G.number_of_nodes()] *)
Definition number_of_nodes (g : Graph) : nat := length (adj g).

(** [G.degree]: a self-loop counts twice. *)
Definition degree (n : Stop) (nbrs : Dict.t EdgeData) : nat :=
  (length nbrs + (if Dict.mem n nbrs then 1 else 0))%nat.

(** [G.number_of_edges()] = [G.size()]: half the sum of the degrees. *)
Definition number_of_edges (g : Graph) : nat :=
  (list_sum (map (fun e => degree (fst e) (snd e)) (adj g)) / 2)%nat.

(** [G.edges(data=True)]: every adjacency entry whose neighbour has not
    been fully reported yet, in adjacency order. *)
Fixpoint edges_from (seen : list Stop) (a : Dict.t (Dict.t EdgeData))
  : list (Stop * Stop * EdgeData) :=
  match a with
  | [] => []
  | (n, nbrs) :: a' =>
      map (fun e => (n, fst e, snd e))
          (List.filter (fun e => negb (existsb (String.eqb (fst e)) seen)) nbrs)
      ++ edges_from (n :: seen) a'
  end.

Definition edges (g : Graph) : list (Stop * Stop * EdgeData) :=
  edges_from [] (adj g).

(** [G.neighbors(n)]: raises [NetworkXError] for a stop not in the graph. *)
Definition neighbors (g : Graph) (n : Stop) : exn + list Stop :=
  match Dict.get n (adj g) with
  | Some nbrs => inr (Dict.keys nbrs)
  | None => inl (NetworkXError n)
  end.

(** [G[u][v]] *)
Definition getitem (g : Graph) (u v : Stop) : exn + EdgeData :=
  match Dict.get u (adj g) with
  | None => inl (KeyError u)
  | Some nbrs =>
      match Dict.get v nbrs with
      | None => inl (KeyError v)
      | Some dd => inr dd
      end
  end.

(** [data[k]] on an attribute dictionary. *)
Definition attribute (dd : EdgeData) (k : string) : exn + Z :=
  match Dict.get k dd with
  | Some z => inr z
  | None => inl (KeyError k)
  end.

(** ** Module 1: [build_transport_graph] *)

Definition routes : list (Stop * Stop * Z * Z * Z) :=
  [ ("A", "B", 10, 5, 3);
    ("A", "C", 15, 4, 5);
    ("B", "D", 12, 6, 4);
    ("C", "D", 8, 3, 2);
    ("C", "E", 10, 5, 4);
    ("D", "E", 6, 2, 1);
    ("D", "F", 15, 6, 5);
    ("E", "F", 8, 3, 2) ].

Definition build_transport_graph : Graph :=
  fold_left
    (fun G r =>
       let '(u, v, time, cost, distance) := r in
       add_edge G u v [("time", time); ("cost", cost); ("distance", distance)])
    routes empty_graph.

(** The [for] loop of [build_transport_graph], run over any list of routes
    from any graph. *)
Definition add_routes (rs : list (Stop * Stop * Z * Z * Z)) (G : Graph)
  : Graph :=
  fold_left
    (fun G r =>
       let '(u, v, time, cost, distance) := r in
       add_edge G u v [("time", time); ("cost", cost); ("distance", distance)])
    rs G.

(** ** Module 1: [validate_graph] *)

Definition success_message : string :=
  "Graph validation successful. Module-1 output is complete and ready to be used by Module-2.".

Fixpoint check_edges (es : list (Stop * Stop * EdgeData)) : bool * string :=
  match es with
  | [] => (true, success_message)
  | (u, v, data) :: es' =>
      if negb (Dict.mem "time" data) || negb (Dict.mem "cost" data)
         || negb (Dict.mem "distance" data)
      then (false, "Missing weights on edge " +:+ u +:+ " - " +:+ v)
      else check_edges es'
  end.

Definition validate_graph (graph : Graph) : bool * string :=
  if Nat.eqb (number_of_nodes graph) 0 then (false, "Graph has no nodes")
  else if Nat.eqb (number_of_edges graph) 0 then (false, "Graph has no edges")
  else check_edges (edges graph).

(** ** The part of [heapq] the program uses

    A heap entry is the tuple [(current_cost, node, path)].  [heapq] orders
    entries with Python's [<] on tuples: the first position where the two
    tuples differ decides.  The two functions are modelled by what [heapq]
    documents of them: [heappush] adds an item, [heappop] removes and
    returns the smallest one.  The order is a strict total order on such
    tuples, so the smallest item is unique and does not depend on the
    layout of the heap array ([heappop_smallest]); the heap is therefore
    represented by the list of its items. *)

Definition entry : Type := Z * Stop * list Stop.

(** [p < q] on lists of strings. *)
Fixpoint path_ltb (p q : list Stop) : bool :=
  match p, q with
  | _, [] => false
  | [], _ :: _ => true
  | x :: p', y :: q' =>
      if String.eqb x y then path_ltb p' q' else String.ltb x y
  end.

(** [a < b] on entries. *)
Definition entry_ltb (a b : entry) : bool :=
  let '(c1, n1, p1) := a in
  let '(c2, n2, p2) := b in
  if Z.eqb c1 c2 then
    if String.eqb n1 n2 then path_ltb p1 p2 else String.ltb n1 n2
  else Z.ltb c1 c2.

(** The smallest item of [e :: pq] and the remaining items. *)
Fixpoint extract_min (e : entry) (pq : list entry) : entry * list entry :=
  match pq with
  | [] => (e, [])
  | x :: pq' =>
      let '(m, rest) := extract_min x pq' in
      if entry_ltb m e then (m, e :: rest) else (e, x :: pq')
  end.

(** [heapq.heappop(pq)] on a non-empty heap. *)
Definition heappop (pq : list entry) : option (entry * list entry) :=
  match pq with
  | [] => None
  | e :: pq' => Some (extract_min e pq')
  end.

(** [heapq.heappush(pq, item)] *)
Definition heappush (pq : list entry) (item : entry) : list entry := item :: pq.

(** ** Module 2: [multi_criteria_dijkstra] *)

(** The number returned as weight: an integer, or [float("inf")]. *)
Inductive weight : Type :=
| Finite (z : Z)
| Infinity.

Definition result : Type := exn + (weight * list Stop).

(** The [for neighbor in graph.neighbors(node)] loop: pushes one entry per
    neighbour that is not visited; a missing attribute raises. *)
Fixpoint push_neighbors (graph : Graph) (alpha beta : Z) (visited : gset Stop)
    (current_cost : Z) (node : Stop) (path : list Stop)
    (nbrs : list Stop) (pq : list entry) : exn + list entry :=
  match nbrs with
  | [] => inr pq
  | neighbor :: nbrs' =>
      if decide (neighbor ∈ visited) then
        push_neighbors graph alpha beta visited current_cost node path nbrs' pq
      else
        match getitem graph node neighbor with
        | inl e => inl e
        | inr edge =>
            match attribute edge "time" with
            | inl e => inl e
            | inr time =>
                match attribute edge "cost" with
                | inl e => inl e
                | inr cost =>
                    let weight := alpha * time + beta * cost in
                    push_neighbors graph alpha beta visited current_cost node
                      path nbrs'
                      (heappush pq (current_cost + weight, neighbor, path))
                end
            end
        end
  end.

(** The [while pq] loop, given an allowance of iterations. *)
Fixpoint while_pq (fuel : nat) (graph : Graph) (destination : Stop)
    (alpha beta : Z) (pq : list entry) (visited : gset Stop) : option result :=
  match fuel with
  | O => None
  | S fuel' =>
      match heappop pq with
      | None => Some (inr (Infinity, []))
      | Some ((current_cost, node, path), pq) =>
          if decide (node ∈ visited) then
            while_pq fuel' graph destination alpha beta pq visited
          else
            let path := path ++ [node] in
            let visited := {[node]} ∪ visited in
            if String.eqb node destination then
              Some (inr (Finite current_cost, path))
            else
              match neighbors graph node with
              | inl e => Some (inl e)
              | inr nbrs =>
                  match push_neighbors graph alpha beta visited current_cost
                          node path nbrs pq with
                  | inl e => Some (inl e)
                  | inr pq =>
                      while_pq fuel' graph destination alpha beta pq visited
                  end
              end
      end
  end.

(** What one visit can cost: the stop itself and one push per neighbour. *)
Fixpoint pending (a : Dict.t (Dict.t EdgeData)) (visited : gset Stop) : nat :=
  match a with
  | [] => O
  | (n, nbrs) :: a' =>
      ((if decide (n ∈ visited) then 0 else S (length nbrs))
       + pending a' visited)%nat
  end.

(** A bound on the iterations left from a loop state. *)
Definition iterations_left (graph : Graph) (pq : list entry)
    (visited : gset Stop) : nat :=
  (length pq + pending (adj graph) visited)%nat.

Definition multi_criteria_dijkstra (graph : Graph) (source destination : Stop)
    (alpha beta : Z) : option result :=
  let pq := [(0, source, [])] in
  let visited : gset Stop := ∅ in
  while_pq (S (iterations_left graph pq visited)) graph destination alpha beta
    pq visited.

(** ** The user interface: what the two tabs compute

    The Streamlit calls only display; what is modelled is the text they are
    given, in the order they are given it, and the exception that ends the
    script when one is raised. *)

(** [f"{n}"] for an integer. *)
Definition str (z : Z) : string := NilZero.string_of_int (Z.to_int z).

(** [f"{cost}"] for the weight the search returns. *)
Definition format_weight (w : weight) : string :=
  match w with
  | Finite z => str z
  | Infinity => "inf"
  end.

(** [sub in s] on strings. *)
Fixpoint str_in (sub s : string) : bool :=
  String.prefix sub s ||
  match s with
  | EmptyString => false
  | String _ s' => str_in sub s'
  end.

(** [sep.join(items)] *)
Definition join (sep : string) (items : list string) : string :=
  String.concat sep items.

(** The line the Module 1 tab writes for one route. *)
Definition edge_line (u v : Stop) (data : EdgeData) : exn + string :=
  match attribute data "time" with
  | inl e => inl e
  | inr time =>
      match attribute data "cost" with
      | inl e => inl e
      | inr cost =>
          match attribute data "distance" with
          | inl e => inl e
          | inr distance =>
              inr (u +:+ " ↔ " +:+ v +:+ " | "
                   +:+ "Time: " +:+ str time +:+ " | "
                   +:+ "Cost: " +:+ str cost +:+ " | "
                   +:+ "Distance: " +:+ str distance)
          end
      end
  end.

(** The loop [for u, v, data in graph.edges(data=True): st.write(...)]: the
    lines written, and the exception that stopped the loop, if any. *)
Fixpoint write_edges (es : list (Stop * Stop * EdgeData))
  : list string * option exn :=
  match es with
  | [] => ([], None)
  | (u, v, data) :: es' =>
      match edge_line u v data with
      | inl e => ([], Some e)
      | inr line =>
          let '(lines, raised) := write_edges es' in (line :: lines, raised)
      end
  end.

(** [(1, 0) if "Time" in preference else (0, 1)] *)
Definition coefficients (preference : string) : Z * Z :=
  if str_in "Time" preference then (1, 0) else (0, 1).

(** The body of [if st.button("Compute Optimized Route")]: the three texts
    displayed, or the exception of the search. *)
Definition compute_optimized_route (graph : Graph)
    (source destination preference : string) : option (exn + list string) :=
  let '(alpha, beta) := coefficients preference in
  match multi_criteria_dijkstra graph source destination alpha beta with
  | None => None
  | Some (inl e) => Some (inl e)
  | Some (inr (cost, route)) =>
      Some (inr [ "## ✅ Optimized Route";
                  join " → " route;
                  "Optimized Weight: " +:+ format_weight cost ])
  end.

(** ** Vocabulary of the properties *)

(** The components of a heap entry. *)
Definition cost_of (e : entry) : Z := e.1.1.
Definition node_of (e : entry) : Stop := e.1.2.

(** *** Routes, paths and their weight *)

(** The derived weight of the route from [u] to [v], computed as the search
    computes it; [None] when there is no such route or an attribute is
    missing. *)
Definition route_weight (g : Graph) (alpha beta : Z) (u v : Stop) : option Z :=
  match getitem g u v with
  | inr edge =>
      match attribute edge "time", attribute edge "cost" with
      | inr time, inr cost => Some (alpha * time + beta * cost)
      | _, _ => None
      end
  | inl _ => None
  end.

(** [v] is a neighbour of [u]. *)
Definition has_route (g : Graph) (u v : Stop) : bool :=
  match getitem g u v with inr _ => true | inl _ => false end.

(** Every two consecutive stops of [p] are joined by a route. *)
Fixpoint routes_connect (g : Graph) (p : list Stop) : bool :=
  match p with
  | u :: (v :: _) as p' => has_route g u v && routes_connect g p'
  | _ => true
  end.

(** The sum of the derived weights over the consecutive pairs of [p]. *)
Fixpoint path_weight (g : Graph) (alpha beta : Z) (p : list Stop) : option Z :=
  match p with
  | u :: (v :: _) as p' =>
      match route_weight g alpha beta u v, path_weight g alpha beta p' with
      | Some w, Some r => Some (w + r)
      | _, _ => None
      end
  | _ => Some 0
  end.

(** [p] is a path from [s] to [d] whose routes all have a weight, [w] in
    total. *)
Definition path_from_to (g : Graph) (alpha beta : Z) (s d : Stop)
    (p : list Stop) (w : Z) : Prop :=
  head p = Some s /\ last p = Some d /\ path_weight g alpha beta p = Some w.

(** Some sequence of routes leads from [s] to [d]. *)
Definition reachable (g : Graph) (s d : Stop) : Prop :=
  exists q, head q = Some s /\ last q = Some d /\ routes_connect g q = true.

(** Conditions on a graph, as boolean checks. *)

(** Every neighbour is itself a stop of the graph ([networkx] keeps this
    invariant: [add_edge] creates both end points). *)
Definition closed (g : Graph) : bool :=
  forallb (fun e => forallb (fun r => has_node g (fst r)) (snd e)) (adj g).

(** Every route carries [time] and [cost]. *)
Definition attributed (g : Graph) : bool :=
  forallb (fun e =>
    forallb (fun r => Dict.mem "time" (snd r) && Dict.mem "cost" (snd r))
      (snd e))
    (adj g).

(** Every route carries non-negative [time] and [cost]. *)
Definition nonnegative (g : Graph) : bool :=
  forallb (fun e =>
    forallb (fun r =>
      match Dict.get "time" (snd r), Dict.get "cost" (snd r) with
      | Some t, Some c => (0 <=? t) && (0 <=? c)
      | _, _ => false
      end) (snd e))
    (adj g).

(** The graph is undirected: both directions of a route share their data. *)
Definition symmetric (g : Graph) : bool :=
  forallb (fun e =>
    forallb (fun r =>
      match Dict.get (fst r) (adj g) with
      | Some back =>
          match Dict.get (fst e) back with
          | Some dd => bool_decide (dd = snd r)
          | None => false
          end
      | None => false
      end) (snd e))
    (adj g).

(** The list form of [closed]. *)
Definition closed_adj (a : Dict.t (Dict.t EdgeData)) : Prop :=
  forall n nbrs m dd, (n, nbrs) ∈ a -> (m, dd) ∈ nbrs -> m ∈ Dict.keys a.

(** Every route carries [time], [cost] and [distance]. *)
Definition fully_attributed (g : Graph) : bool :=
  forallb (fun e =>
    forallb (fun r =>
      Dict.mem "time" (snd r) && Dict.mem "cost" (snd r)
      && Dict.mem "distance" (snd r)) (snd e))
    (adj g).

(** The graph has no route at all. *)
Definition no_routes (g : Graph) : bool :=
  forallb (fun e => match snd e with [] => true | _ :: _ => false end) (adj g).

(** No route leaves the set [S] of stops. *)
Definition route_closed (g : Graph) (S : gset Stop) : bool :=
  forallb (fun u =>
    match neighbors g u with
    | inr nbrs => forallb (fun v => bool_decide (v ∈ S)) nbrs
    | inl _ => true
    end) (elements S).

(** *** Invariants of the search loop

    An entry [(c, n, p)] stands for the path [p ++ [n]] from the source: its
    weight is [c], and [p] consists of distinct visited stops. *)

Definition entry_ok (graph : Graph) (alpha beta : Z) (source : Stop)
    (visited : gset Stop) (e : entry) : Prop :=
  head (e.2 ++ [node_of e]) = Some source /\
  path_weight graph alpha beta (e.2 ++ [node_of e]) = Some (cost_of e) /\
  NoDup e.2 /\
  forall x, x ∈ e.2 -> x ∈ visited.

Definition entries_ok (graph : Graph) (alpha beta : Z) (source : Stop)
    (visited : gset Stop) (pq : list entry) : Prop :=
  forall e, e ∈ pq -> entry_ok graph alpha beta source visited e.

(** The stop of every entry is a stop of the graph. *)
Definition nodes_ok (graph : Graph) (pq : list entry) : Prop :=
  forall e, e ∈ pq -> node_of e ∈ nodes graph.

(** [c] is at most the weight of every path from the source to [u]. *)
Definition lower_bound (graph : Graph) (alpha beta : Z) (source : Stop)
    (u : Stop) (c : Z) : Prop :=
  forall q wq, path_from_to graph alpha beta source u q wq -> c <= wq.

(** As long as the source is not visited, its seed entry is in the heap. *)
Definition seed_ok (source : Stop) (visited : gset Stop) (pq : list entry)
  : Prop :=
  source ∉ visited -> (0, source, []) ∈ pq.

(** Every route that leaves the visited stops has an entry in the heap,
    which costs no more than reaching the visited end and taking the route. *)
Definition frontier_ok (graph : Graph) (alpha beta : Z) (source : Stop)
    (visited : gset Stop) (pq : list entry) : Prop :=
  forall u, u ∈ visited -> exists du,
    lower_bound graph alpha beta source u du /\
    forall v w, route_weight graph alpha beta u v = Some w -> v ∉ visited ->
      exists c p, (c, v, p) ∈ pq /\ c <= du + w.

(** *** Routes as a lookup, undirected graphs *)

(** The data of the route from [u] to [v], if there is one. *)
Definition route_data (g : Graph) (u v : Stop) : option EdgeData :=
  match Dict.get u (adj g) with
  | Some nbrs => Dict.get v nbrs
  | None => None
  end.

(** Both directions of every route exist and carry the same data. *)
Definition undirected (g : Graph) : Prop :=
  forall u v, route_data g u v = route_data g v u.

(** No dictionary of the graph binds a key twice, as in Python. *)
Definition keys_unique (g : Graph) : bool :=
  bool_decide (NoDup (Dict.keys (adj g)))
  && forallb (fun e => bool_decide (NoDup (Dict.keys (snd e)))) (adj g).

(** A graph as [networkx] keeps it: dictionaries with distinct keys, every
    neighbour a stop, every route stored in both directions. *)
Definition well_formed (g : Graph) : bool :=
  keys_unique g && closed g && symmetric g.

(** The tuple [r] of a route list joins the stops [u] and [v]. *)
Definition joins (r : Stop * Stop * Z * Z * Z) (u v : Stop) : Prop :=
  let '(a, b, _, _, _) := r in (a = u /\ b = v) \/ (a = v /\ b = u).

(** Two graphs with the same stops and the same routes, stored in whatever
    order. *)
Definition same_routes (g1 g2 : Graph) : Prop :=
  (forall u, has_node g1 u = has_node g2 u) /\
  (forall u v, route_data g1 u v = route_data g2 u v).

(** The entry the [for] loop pushes for the neighbour [v], if any. *)
Definition pushed (g : Graph) (alpha beta : Z) (visited : gset Stop)
    (c : Z) (node : Stop) (path : list Stop) (v : Stop) : option entry :=
  if decide (v ∈ visited) then None
  else match route_weight g alpha beta node v with
       | Some w => Some (c + w, v, path)
       | None => None
       end.

(** The two stops of a tuple, in alphabetical order. *)
Definition pair_key (r : Stop * Stop * Z * Z * Z) : Stop * Stop :=
  let '(a, b, _, _, _) := r in if String.leb a b then (a, b) else (b, a).

(** No two tuples of the list join the same two stops. *)
Definition distinct_pairs (rs : list (Stop * Stop * Z * Z * Z)) : Prop :=
  NoDup (map pair_key rs).



(** The test [validate_graph] makes on the data of a route, negated. *)
Definition has_weights (data : EdgeData) : bool :=
  Dict.mem "time" data && Dict.mem "cost" data && Dict.mem "distance" data.

(** The sum of one attribute over the routes of a path. *)
Fixpoint path_sum (g : Graph) (key : string) (p : list Stop) : option Z :=
  match p with
  | u :: (v :: _) as p' =>
      match route_data g u v, path_sum g key p' with
      | Some data, Some r =>
          match Dict.get key data with
          | Some x => Some (x + r)
          | None => None
          end
      | _, _ => None
      end
  | _ => Some 0
  end.

(** The sum of the degrees, of which [number_of_edges] is the half. *)
Definition degree_sum (a : Dict.t (Dict.t EdgeData)) : nat :=
  list_sum (map (fun e => degree (fst e) (snd e)) a).

(** The attribute a radio option of the Module 2 tab asks to make smallest,
    as its label says it; the radio has these two options. *)
Definition criterion (preference : string) : option string :=
  if String.eqb preference "Fastest Route (Time)" then Some "time"
  else if String.eqb preference "Cheapest Route (Cost)" then Some "cost"
  else None.

(** *** Example networks *)

(** Two separate routes, A-B and C-D. *)
Definition two_islands : Graph :=
  add_edge
    (add_edge empty_graph "A" "B" [("time", 4); ("cost", 2); ("distance", 1)])
    "C" "D" [("time", 3); ("cost", 1); ("distance", 1)].

(** The same, but the route A-B was added without any attribute. *)
Definition bare_island : Graph :=
  add_edge (add_edge empty_graph "A" "B" [])
    "C" "D" [("time", 3); ("cost", 1); ("distance", 1)].

(** One stop and no route. *)
Definition lonely_stop : Graph := add_node empty_graph "A".

(** ** Facts about the heap model *)

Lemma entry_ltb_cost a b : entry_ltb a b = true -> cost_of a <= cost_of b.
Proof.
  destruct a as [[c1 n1] p1], b as [[c2 n2] p2]; cbn.
  destruct (Z.eqb_spec c1 c2); [lia|]. intros H%Z.ltb_lt. lia.
Qed.

Lemma entry_nltb_cost a b : entry_ltb a b = false -> cost_of b <= cost_of a.
Proof.
  destruct a as [[c1 n1] p1], b as [[c2 n2] p2]; cbn.
  destruct (Z.eqb_spec c1 c2); [lia|]. intros H%Z.ltb_ge. lia.
Qed.

Lemma extract_min_perm e pq :
  (extract_min e pq).1 :: (extract_min e pq).2 ≡ₚ e :: pq.
Proof.
  revert e; induction pq as [|x pq IH]; intros e; cbn; [done|].
  specialize (IH x). destruct (extract_min x pq) as [m rest]; cbn in IH.
  destruct (entry_ltb m e); cbn; [|done].
  rewrite <- IH. apply Permutation_swap.
Qed.

Lemma extract_min_least e pq x :
  x ∈ e :: pq -> cost_of (extract_min e pq).1 <= cost_of x.
Proof.
  revert e x; induction pq as [|y pq IH]; intros e x Hx; cbn.
  - apply list_elem_of_singleton in Hx as ->. lia.
  - pose proof (IH y) as IHy.
    destruct (extract_min y pq) as [m rest]; cbn in IHy.
    destruct (entry_ltb m e) eqn:Hlt; cbn.
    + apply entry_ltb_cost in Hlt.
      apply elem_of_cons in Hx as [->|Hx]; [done|]. by apply IHy.
    + apply entry_nltb_cost in Hlt.
      apply elem_of_cons in Hx as [->|Hx]; [lia|].
      specialize (IHy x Hx). lia.
Qed.

Lemma heappop_None pq : heappop pq = None <-> pq = [].
Proof. destruct pq; cbn; split; congruence. Qed.

Lemma heappop_perm pq m rest :
  heappop pq = Some (m, rest) -> m :: rest ≡ₚ pq.
Proof.
  destruct pq as [|e pq]; cbn; [done|]. intros [= H].
  pose proof (extract_min_perm e pq) as HP. by rewrite H in HP.
Qed.

Lemma heappop_least pq m rest x :
  heappop pq = Some (m, rest) -> x ∈ pq -> cost_of m <= cost_of x.
Proof.
  destruct pq as [|e pq]; cbn; [done|]. intros [= H] Hx.
  pose proof (extract_min_least e pq x Hx) as HL. by rewrite H in HL.
Qed.

Lemma heappop_elem pq m rest x :
  heappop pq = Some (m, rest) -> x ∈ pq <-> x = m \/ x ∈ rest.
Proof.
  intros H%heappop_perm. rewrite <- H. apply elem_of_cons.
Qed.

Lemma heappop_length pq m rest :
  heappop pq = Some (m, rest) -> length pq = S (length rest).
Proof. intros H%heappop_perm. by rewrite <- H. Qed.

(** *** Python's order on heap entries is a strict total order *)

Lemma string_ltb_lt a b : String.ltb a b = true <-> String_as_OT.lt a b.
Proof.
  rewrite <- String_as_OT.cmp_lt. unfold String.ltb, String_as_OT.cmp.
  by destruct (String.compare a b).
Qed.

Lemma string_ltb_irrefl a : String.ltb a a = false.
Proof.
  destruct (String.ltb a a) eqn:H; [|done].
  apply string_ltb_lt, String_as_OT.lt_not_eq in H. by destruct H.
Qed.

Lemma string_ltb_trans a b c :
  String.ltb a b = true -> String.ltb b c = true -> String.ltb a c = true.
Proof. rewrite !string_ltb_lt. apply String_as_OT.lt_trans. Qed.

Lemma string_ltb_total a b :
  String.ltb a b = false -> String.ltb b a = false -> a = b.
Proof.
  unfold String.ltb. rewrite (String.compare_antisym b a).
  destruct (String.compare a b) eqn:H; [|done..].
  intros _ _. by apply String.compare_eq_iff.
Qed.

Lemma path_ltb_irrefl p : path_ltb p p = false.
Proof.
  induction p as [|x p IH]; cbn; [done|]. by rewrite String.eqb_refl.
Qed.

Lemma path_ltb_trans p q r :
  path_ltb p q = true -> path_ltb q r = true -> path_ltb p r = true.
Proof.
  revert q r; induction p as [|x p IH]; intros [|y q] [|z r]; cbn; try done.
  destruct (String.eqb_spec x y) as [->|Hxy], (String.eqb_spec y z) as [->|Hyz].
  - apply IH.
  - by intros _ ?.
  - destruct (String.eqb_spec x z); [done|]. by intros ? _.
  - intros Hlt1 Hlt2. pose proof (string_ltb_trans _ _ _ Hlt1 Hlt2) as Hxz.
    destruct (String.eqb_spec x z) as [->|]; [|done].
    by rewrite string_ltb_irrefl in Hxz.
Qed.

Lemma path_ltb_total p q :
  path_ltb p q = false -> path_ltb q p = false -> p = q.
Proof.
  revert q; induction p as [|x p IH]; intros [|y q]; cbn; try done.
  rewrite (String.eqb_sym y x).
  destruct (String.eqb_spec x y) as [->|Hxy].
  - intros. f_equal. by apply IH.
  - intros H1 H2. destruct Hxy. by apply string_ltb_total.
Qed.

Lemma entry_ltb_irrefl a : entry_ltb a a = false.
Proof.
  destruct a as [[c n] p]. cbn.
  by rewrite Z.eqb_refl, String.eqb_refl, path_ltb_irrefl.
Qed.

Lemma entry_ltb_trans a b c :
  entry_ltb a b = true -> entry_ltb b c = true -> entry_ltb a c = true.
Proof.
  destruct a as [[c1 n1] p1], b as [[c2 n2] p2], c as [[c3 n3] p3]. cbn.
  destruct (Z.eqb_spec c1 c2) as [->|H12], (Z.eqb_spec c2 c3) as [->|H23].
  - destruct (String.eqb_spec n1 n2) as [->|N12],
      (String.eqb_spec n2 n3) as [->|N23].
    + apply path_ltb_trans.
    + by intros _ ?.
    + destruct (String.eqb_spec n1 n3); [done|]. by intros ? _.
    + intros Hlt1 Hlt2. pose proof (string_ltb_trans _ _ _ Hlt1 Hlt2) as Hxz.
      destruct (String.eqb_spec n1 n3) as [->|]; [|done].
      by rewrite string_ltb_irrefl in Hxz.
  - by intros _ ?.
  - destruct (Z.eqb_spec c1 c3); [done|]. by intros ? _.
  - intros ?%Z.ltb_lt ?%Z.ltb_lt.
    destruct (Z.eqb_spec c1 c3); [lia|]. apply Z.ltb_lt. lia.
Qed.

Lemma entry_ltb_total a b :
  entry_ltb a b = false -> entry_ltb b a = false -> a = b.
Proof.
  destruct a as [[c1 n1] p1], b as [[c2 n2] p2]. cbn.
  rewrite (Z.eqb_sym c2 c1), (String.eqb_sym n2 n1).
  destruct (Z.eqb_spec c1 c2) as [->|Hc].
  - destruct (String.eqb_spec n1 n2) as [->|Hn].
    + intros H1 H2. f_equal. by apply path_ltb_total.
    + intros H1 H2. destruct Hn. by apply string_ltb_total.
  - intros ?%Z.ltb_ge ?%Z.ltb_ge. lia.
Qed.

(** No item of the heap is smaller than the one [extract_min] selects. *)
Lemma extract_min_minimal e pq x :
  x ∈ e :: pq -> entry_ltb x (extract_min e pq).1 = false.
Proof.
  revert e x; induction pq as [|y pq IH]; intros e x Hx; cbn.
  - apply list_elem_of_singleton in Hx as ->. apply entry_ltb_irrefl.
  - pose proof (IH y) as IHy.
    destruct (extract_min y pq) as [m rest]; cbn in IHy.
    destruct (entry_ltb m e) eqn:Hlt; cbn.
    + apply elem_of_cons in Hx as [->|Hx]; [|by apply IHy].
      destruct (entry_ltb e m) eqn:Hem; [|done].
      pose proof (entry_ltb_trans _ _ _ Hlt Hem) as Hmm.
      by rewrite entry_ltb_irrefl in Hmm.
    + apply elem_of_cons in Hx as [->|Hx]; [apply entry_ltb_irrefl|].
      destruct (entry_ltb x e) eqn:Hxe; [|done].
      specialize (IHy x Hx). destruct (entry_ltb m x) eqn:Hmx.
      * by rewrite (entry_ltb_trans _ _ _ Hmx Hxe) in Hlt.
      * rewrite (entry_ltb_total _ _ IHy Hmx) in Hxe. congruence.
Qed.

(** [heappop] returns the smallest item, and the smallest item is unique:
    whichever way the heap is laid out, popping it yields this item. *)
Lemma heappop_smallest pq m rest :
  heappop pq = Some (m, rest) ->
  m ∈ pq /\ (forall x, x ∈ pq -> entry_ltb x m = false) /\
  forall m',
    m' ∈ pq -> (forall x, x ∈ pq -> entry_ltb x m' = false) -> m' = m.
Proof.
  intros Hpop. assert (Hm : m ∈ pq).
  { apply (heappop_elem _ _ _ _ Hpop). by left. }
  assert (Hmin : forall x, x ∈ pq -> entry_ltb x m = false).
  { destruct pq as [|e pq]; [done|]. cbn in Hpop. injection Hpop as Hpop.
    intros x Hx. pose proof (extract_min_minimal e pq x Hx) as H.
    by rewrite Hpop in H. }
  split_and!; [done..|]. intros m' Hm' Hmin'.
  apply entry_ltb_total; auto.
Qed.

(** ** Facts about dictionaries, graphs and paths *)

Lemma dict_get_elem {V} (k : string) (d : Dict.t V) v :
  Dict.get k d = Some v -> (k, v) ∈ d.
Proof.
  induction d as [|[k' v'] d IH]; cbn; [done|].
  destruct (String.eqb_spec k k') as [->|]; [intros [= ->]; left|right; auto].
Qed.

Lemma dict_get_keys {V} (k : string) (d : Dict.t V) :
  k ∈ Dict.keys d <-> is_Some (Dict.get k d).
Proof.
  induction d as [|[k' v'] d IH]; cbn.
  - split; [intros H; inversion H|intros [? [=]]].
  - destruct (String.eqb_spec k k') as [->|Hne].
    + split; [eauto|left].
    + rewrite elem_of_cons, IH. tauto.
Qed.

Lemma dict_mem_keys {V} (k : string) (d : Dict.t V) :
  Dict.mem k d = true <-> k ∈ Dict.keys d.
Proof.
  rewrite dict_get_keys. unfold Dict.mem.
  destruct (Dict.get k d); split; first [done | by eauto | by intros [? [=]]].
Qed.

Lemma has_node_nodes g n : has_node g n = true <-> n ∈ nodes g.
Proof. apply dict_mem_keys. Qed.

Lemma neighbors_inr g u nbrs v :
  neighbors g u = inr nbrs -> v ∈ nbrs <-> has_route g u v = true.
Proof.
  unfold neighbors, has_route, getitem.
  destruct (Dict.get u (adj g)) as [ns|]; [|done]. intros [= <-].
  rewrite dict_get_keys.
  destruct (Dict.get v ns); split; first [done | by eauto | by intros [? [=]]].
Qed.

Lemma neighbors_is_node g u :
  (exists nbrs, neighbors g u = inr nbrs) <-> u ∈ nodes g.
Proof.
  rewrite <- has_node_nodes. unfold neighbors, has_node, Dict.mem.
  destruct (Dict.get u (adj g)); split;
    first [done | by eauto | by intros [? [=]]].
Qed.

Lemma route_weight_has_route g alpha beta u v w :
  route_weight g alpha beta u v = Some w -> has_route g u v = true.
Proof. unfold route_weight, has_route. by destruct (getitem g u v). Qed.

Lemma closed_route g u v :
  closed g = true -> has_route g u v = true -> v ∈ nodes g.
Proof.
  unfold closed, has_route, getitem. intros Hc.
  destruct (Dict.get u (adj g)) as [ns|] eqn:Hu; [|done].
  destruct (Dict.get v ns) as [dd|] eqn:Hv; [intros _|done].
  apply dict_get_elem, list_elem_of_In in Hu, Hv.
  rewrite forallb_forall in Hc. specialize (Hc _ Hu). cbn in Hc.
  rewrite forallb_forall in Hc. specialize (Hc _ Hv). cbn in Hc.
  by apply has_node_nodes.
Qed.

Lemma attributed_route g alpha beta u v :
  attributed g = true -> has_route g u v = true ->
  is_Some (route_weight g alpha beta u v).
Proof.
  unfold attributed, has_route, route_weight, getitem, attribute. intros Hc.
  destruct (Dict.get u (adj g)) as [ns|] eqn:Hu; [|done].
  destruct (Dict.get v ns) as [dd|] eqn:Hv; [intros _|done].
  apply dict_get_elem, list_elem_of_In in Hu, Hv.
  rewrite forallb_forall in Hc. specialize (Hc _ Hu). cbn in Hc.
  rewrite forallb_forall in Hc. specialize (Hc _ Hv). cbn in Hc.
  unfold Dict.mem in Hc.
  by destruct (Dict.get "time" dd), (Dict.get "cost" dd).
Qed.

Lemma nonnegative_attributed g : nonnegative g = true -> attributed g = true.
Proof.
  unfold nonnegative, attributed. rewrite !forallb_forall. intros H e He.
  specialize (H e He). rewrite forallb_forall in H |- *. intros r Hr.
  specialize (H r Hr). unfold Dict.mem.
  by destruct (Dict.get "time" r.2), (Dict.get "cost" r.2).
Qed.

Lemma nonnegative_route g alpha beta u v w :
  nonnegative g = true -> 0 <= alpha -> 0 <= beta ->
  route_weight g alpha beta u v = Some w -> 0 <= w.
Proof.
  unfold nonnegative, route_weight, getitem, attribute. intros Hc Ha Hb.
  destruct (Dict.get u (adj g)) as [ns|] eqn:Hu; [|done].
  destruct (Dict.get v ns) as [dd|] eqn:Hv; [|done].
  apply dict_get_elem, list_elem_of_In in Hu, Hv.
  rewrite forallb_forall in Hc. specialize (Hc _ Hu). cbn in Hc.
  rewrite forallb_forall in Hc. specialize (Hc _ Hv). cbn in Hc.
  destruct (Dict.get "time" dd), (Dict.get "cost" dd); try done.
  apply andb_prop in Hc as [?%Z.leb_le ?%Z.leb_le]. intros [= <-]. nia.
Qed.

Lemma path_weight_cons g alpha beta u v r :
  path_weight g alpha beta (u :: v :: r) =
  match route_weight g alpha beta u v, path_weight g alpha beta (v :: r) with
  | Some w, Some t => Some (w + t)
  | _, _ => None
  end.
Proof. reflexivity. Qed.

Lemma path_weight_app g alpha beta q1 u q2 w :
  path_weight g alpha beta (q1 ++ u :: q2) = Some w <->
  exists w1 w2, path_weight g alpha beta (q1 ++ [u]) = Some w1 /\
                path_weight g alpha beta (u :: q2) = Some w2 /\ w = w1 + w2.
Proof.
  revert w; induction q1 as [|x q1 IH]; intros w.
  - cbn [app]. split.
    + intros H. exists 0, w. by cbn.
    + intros (w1 & w2 & [= <-] & H2 & ->). by rewrite H2.
  - assert (Hsh : forall t, exists y r, q1 ++ u :: t = y :: r).
    { intros t. destruct q1; cbn; eauto. }
    destruct (Hsh q2) as (y & r & E), (Hsh []) as (y' & r' & E').
    assert (y' = y) as ->.
    { destruct q1; cbn in E, E'; congruence. }
    cbn [app]. rewrite E, E', !path_weight_cons, <- E, <- E'.
    destruct (route_weight g alpha beta x y) as [wxy|];
      [|split; [done|by intros (? & ? & [=] & _)]].
    split.
    + destruct (path_weight g alpha beta (q1 ++ u :: q2)) as [t|]; [|done].
      intros [= <-].
      destruct (proj1 (IH t) eq_refl) as (w1 & w2 & H1 & H2 & ->).
      exists (wxy + w1), w2. rewrite H1. split_and!; [done|done|lia].
    + intros (w1 & w2 & H1 & H2 & ->).
      destruct (path_weight g alpha beta (q1 ++ [u])) as [t|]; [|done].
      injection H1 as <-.
      rewrite (proj2 (IH (t + w2))) by eauto.
      f_equal. lia.
Qed.

Lemma path_weight_snoc g alpha beta p u v c w :
  path_weight g alpha beta (p ++ [u]) = Some c ->
  route_weight g alpha beta u v = Some w ->
  path_weight g alpha beta ((p ++ [u]) ++ [v]) = Some (c + w).
Proof.
  intros Hc Hw. rewrite <- app_assoc. cbn [app]. apply path_weight_app.
  exists c, w. split_and!; [done| |done]. cbn. rewrite Hw. f_equal. lia.
Qed.

Lemma path_weight_routes g alpha beta p w :
  path_weight g alpha beta p = Some w -> routes_connect g p = true.
Proof.
  revert w; induction p as [|u [|v r] IH]; intros w; [done..|].
  rewrite path_weight_cons. cbn [routes_connect].
  destruct (route_weight g alpha beta u v) eqn:Hr; [|done].
  destruct (path_weight g alpha beta (v :: r)); [|done]. intros _.
  apply route_weight_has_route in Hr. rewrite Hr. cbn. eauto.
Qed.

Lemma path_weight_nonneg g alpha beta p w :
  nonnegative g = true -> 0 <= alpha -> 0 <= beta ->
  path_weight g alpha beta p = Some w -> 0 <= w.
Proof.
  intros Hg Ha Hb. revert w; induction p as [|u [|v r] IH]; intros w.
  - intros [= <-]. lia.
  - intros [= <-]. lia.
  - rewrite path_weight_cons.
    destruct (route_weight g alpha beta u v) eqn:Hr; [|done].
    destruct (path_weight g alpha beta (v :: r)); [|done]. intros [= <-].
    apply nonnegative_route in Hr; [|done..]. specialize (IH _ eq_refl). lia.
Qed.

(** A path that starts inside a set of stops and ends outside of it leaves
    the set along one of its routes. *)
Lemma path_leaves (visited : gset Stop) (q : list Stop) s n :
  head q = Some s -> last q = Some n -> s ∈ visited -> n ∉ visited ->
  exists q1 u v q2, q = q1 ++ u :: v :: q2 /\ u ∈ visited /\ v ∉ visited.
Proof.
  revert s; induction q as [|x q IH]; intros s; [done|].
  intros [= ->] Hl Hs Hn. destruct q as [|y q].
  - cbn in Hl. congruence.
  - destruct (decide (y ∈ visited)) as [Hy|Hy].
    + destruct (IH y) as (q1 & u & v & q2 & E & Hu & Hv); [done..|].
      exists (s :: q1), u, v, q2. by rewrite E.
    + by exists [], s, y, q.
Qed.

(** ** Graphs built with [add_edge] *)

Lemma dict_set_elem {V} (k : string) (v : V) (d : Dict.t V) k' v' :
  (k', v') ∈ Dict.set k v d -> (k', v') ∈ d \/ (k' = k /\ v' = v).
Proof.
  induction d as [|[k0 v0] d IH]; cbn.
  - intros [= -> ->]%list_elem_of_singleton. by right.
  - destruct (String.eqb_spec k k0) as [->|Hne].
    + intros [[= -> ->]|H]%elem_of_cons; [by right|left; by right].
    + intros [[= -> ->]|[H|H]%IH]%elem_of_cons;
        [left; left|left; by right|by right].
Qed.

Lemma dict_set_keys {V} (k : string) (v : V) (d : Dict.t V) k' :
  k' ∈ Dict.keys (Dict.set k v d) <-> k' = k \/ k' ∈ Dict.keys d.
Proof.
  induction d as [|[k0 v0] d IH]; cbn.
  - rewrite list_elem_of_singleton, elem_of_nil. tauto.
  - destruct (String.eqb_spec k k0) as [->|Hne]; cbn.
    + rewrite !elem_of_cons. tauto.
    + rewrite !elem_of_cons, IH. tauto.
Qed.

Lemma closed_closed_adj g : closed g = true <-> closed_adj (adj g).
Proof.
  unfold closed, closed_adj. rewrite forallb_forall. split.
  - intros H n nbrs m dd Hn%list_elem_of_In Hm%list_elem_of_In.
    specialize (H _ Hn). cbn in H. rewrite forallb_forall in H.
    apply has_node_nodes. apply (H _ Hm).
  - intros H [n nbrs] Hn%list_elem_of_In. apply forallb_forall.
    intros [m dd] Hm%list_elem_of_In. apply has_node_nodes. cbn. eauto.
Qed.

Lemma ensure_node_keys n a k :
  k ∈ Dict.keys (ensure_node n a) <-> k = n \/ k ∈ Dict.keys a.
Proof.
  unfold ensure_node. destruct (Dict.mem n a) eqn:Hm.
  - apply dict_mem_keys in Hm. split; [tauto|]. by intros [->|].
  - apply dict_set_keys.
Qed.

Lemma closed_adj_ensure_node n a : closed_adj a -> closed_adj (ensure_node n a).
Proof.
  intros Hcl k nbrs m dd Hk Hm. apply ensure_node_keys. right.
  unfold ensure_node in Hk. destruct (Dict.mem n a); [by eapply Hcl|].
  apply dict_set_elem in Hk as [Hk|[_ ->]]; [by eapply Hcl|].
  by apply elem_of_nil in Hm.
Qed.

Lemma adj_of_elem a n m dd :
  closed_adj a -> (m, dd) ∈ adj_of a n -> m ∈ Dict.keys a.
Proof.
  unfold adj_of. intros Hcl. destruct (Dict.get n a) as [nbrs|] eqn:Hn.
  - intros Hm. apply dict_get_elem in Hn. by eapply Hcl.
  - by intros ?%elem_of_nil.
Qed.

(** Storing at [u] an adjacency whose neighbours are stops keeps the graph
    closed. *)
Lemma closed_adj_set u nbrs a :
  closed_adj a -> (forall m dd, (m, dd) ∈ nbrs -> m ∈ Dict.keys a) ->
  closed_adj (Dict.set u nbrs a).
Proof.
  intros Hcl Hn k ns m dd Hk Hm. apply dict_set_keys. right.
  apply dict_set_elem in Hk as [Hk|[_ ->]]; [by eapply Hcl|by eapply Hn].
Qed.

Lemma closed_empty_graph : closed empty_graph = true.
Proof. reflexivity. Qed.

(** [add_edge] keeps the neighbours among the stops: every graph built from
    [nx.Graph()] with [add_edge] is closed. *)
Lemma closed_add_edge g u v attr :
  closed g = true -> closed (add_edge g u v attr) = true.
Proof.
  rewrite !closed_closed_adj. intros Hcl. unfold add_edge. cbn [adj].
  set (a2 := ensure_node v (ensure_node u (adj g))).
  set (datadict := Dict.update attr _).
  assert (H2 : closed_adj a2) by by do 2 apply closed_adj_ensure_node.
  assert (Hu : u ∈ Dict.keys a2).
  { apply ensure_node_keys. right. apply ensure_node_keys. by left. }
  assert (Hv : v ∈ Dict.keys a2) by (apply ensure_node_keys; by left).
  set (a3 := Dict.set u (Dict.set v datadict (adj_of a2 u)) a2).
  assert (H3 : closed_adj a3).
  { apply closed_adj_set; [done|].
    intros m dd [Hm|[-> _]]%dict_set_elem; [|done].
    by apply (adj_of_elem a2 u m dd). }
  apply closed_adj_set; [done|]. intros m dd [Hm|[-> _]]%dict_set_elem.
  - by apply (adj_of_elem a3 v m dd).
  - apply dict_set_keys. by right.
Qed.

Lemma closed_build_transport_graph : closed build_transport_graph = true.
Proof.
  unfold build_transport_graph.
  assert (H : forall rs g, closed g = true ->
    closed (fold_left (fun G r =>
       let '(u, v, time, cost, distance) := r in
       add_edge G u v [("time", time); ("cost", cost); ("distance", distance)])
     rs g) = true).
  { induction rs as [|[[[[u v] t] c] d] rs IH]; intros g Hg; [done|].
    cbn [fold_left]. by apply IH, closed_add_edge. }
  apply H, closed_empty_graph.
Qed.

(** ** The search loop *)

Lemma elem_of_visit (visited : gset string) (node x : string) :
  x ∈ {[node]} ∪ visited <-> x = node \/ x ∈ visited.
Proof. by rewrite elem_of_union, elem_of_singleton. Qed.

Lemma not_elem_of_visit (visited : gset string) (node x : string) :
  x ∉ {[node]} ∪ visited <-> x <> node /\ x ∉ visited.
Proof. rewrite elem_of_visit. tauto. Qed.

Section Search.

Variable graph : Graph.
Variables alpha beta : Z.

(** *** The inner [for] loop *)

(** What a completed [for] loop has pushed: one entry per neighbour that is
    not visited, each extending [path] by the route just taken, on top of
    the heap it started from. *)
Lemma push_neighbors_inr visited c node path nbrs pq pq' :
  push_neighbors graph alpha beta visited c node path nbrs pq = inr pq' ->
  exists new,
    pq' = new ++ pq /\ (length new <= length nbrs)%nat /\
    (forall e, e ∈ new -> exists v w,
        e = (c + w, v, path) /\ v ∈ nbrs /\ (v ∉ visited) /\
        route_weight graph alpha beta node v = Some w) /\
    (forall v, v ∈ nbrs -> v ∉ visited -> exists w,
        route_weight graph alpha beta node v = Some w /\
        (c + w, v, path) ∈ new).
Proof.
  revert pq; induction nbrs as [|n nbrs IH]; intros pq; cbn [push_neighbors].
  - intros [= <-]. exists [].
    split_and!; [done|done|intros ? ?%elem_of_nil; done..].
  - destruct (decide (n ∈ visited)) as [Hn|Hn].
    + intros (new & -> & Hlen & Hnew & Hall)%IH. exists new.
      split_and!; [done|cbn; lia| |].
      * intros e (v & w & ?)%Hnew. exists v, w. rewrite elem_of_cons. tauto.
      * intros v [->|Hv]%elem_of_cons ?; [done|]. by apply Hall.
    + unfold route_weight in *.
      destruct (getitem graph node n) as [|edge] eqn:Hg; [done|].
      destruct (attribute edge "time") as [|time] eqn:Ht; [done|].
      destruct (attribute edge "cost") as [|cost] eqn:Hc; [done|].
      intros (new & -> & Hlen & Hnew & Hall)%IH. unfold heappush.
      exists (new ++ [(c + (alpha * time + beta * cost), n, path)]).
      split_and!.
      * by rewrite <- app_assoc.
      * rewrite length_app. cbn. lia.
      * intros e [(v & w & ?)%Hnew | ->%list_elem_of_singleton]%elem_of_app.
        -- exists v, w. rewrite elem_of_cons. tauto.
        -- exists n, (alpha * time + beta * cost). rewrite Hg, Ht, Hc.
           split_and!; [done|left|done|done].
      * intros v [->|Hv]%elem_of_cons Hvis.
        -- exists (alpha * time + beta * cost). rewrite Hg, Ht, Hc.
           split; [done|]. apply elem_of_app. right. left.
        -- destruct (Hall v Hv Hvis) as (w & ? & ?). exists w.
           split; [done|]. apply elem_of_app. by left.
Qed.

(** The [for] loop raises only when a route to a neighbour lacks a weight. *)
Lemma push_neighbors_total visited c node path nbrs pq :
  (forall v, v ∈ nbrs -> is_Some (route_weight graph alpha beta node v)) ->
  exists pq',
    push_neighbors graph alpha beta visited c node path nbrs pq = inr pq'.
Proof.
  revert pq; induction nbrs as [|n nbrs IH]; intros pq Hw; cbn [push_neighbors].
  - eauto.
  - assert (Hrest : forall v, v ∈ nbrs ->
              is_Some (route_weight graph alpha beta node v)).
    { intros v Hv. apply Hw. by right. }
    destruct (decide (n ∈ visited)); [by apply IH|].
    destruct (Hw n) as [w Hn]; [left|]. unfold route_weight in Hn.
    destruct (getitem graph node n) as [|edge]; [done|].
    destruct (attribute edge "time") as [|time]; [done|].
    destruct (attribute edge "cost") as [|cost]; [done|].
    by apply IH.
Qed.

(** *** Termination of the [while] loop *)

Lemma pending_mono a (visited : gset Stop) node :
  (pending a ({[node]} ∪ visited) <= pending a visited)%nat.
Proof.
  induction a as [|[n nbrs] a IH]; cbn; [lia|].
  destruct (decide (n ∈ visited)), (decide (n ∈ {[node]} ∪ visited));
    try lia. rewrite elem_of_visit in *. tauto.
Qed.

(** Visiting a stop of the graph pays for the pushes of its [for] loop. *)
Lemma pending_visit a (visited : gset Stop) node nbrs :
  Dict.get node a = Some nbrs -> node ∉ visited ->
  (S (length nbrs) + pending a ({[node]} ∪ visited) <= pending a visited)%nat.
Proof.
  induction a as [|[n ns] a IH]; cbn; [done|].
  destruct (String.eqb_spec node n) as [->|Hne].
  - intros [= ->] Hn. pose proof (pending_mono a visited n).
    destruct (decide (n ∈ visited)); [done|].
    destruct (decide (n ∈ {[n]} ∪ visited)) as [|[]]; [lia|].
    apply elem_of_visit. by left.
  - intros Hg Hn. specialize (IH Hg Hn).
    destruct (decide (n ∈ visited)), (decide (n ∈ {[node]} ∪ visited));
      try lia. rewrite elem_of_visit in *. tauto.
Qed.

Variable destination : Stop.

(** The loop ends within [iterations_left] iterations: with a result or
    with an exception. *)
Lemma while_pq_terminates fuel pq visited :
  (iterations_left graph pq visited < fuel)%nat ->
  is_Some (while_pq fuel graph destination alpha beta pq visited).
Proof.
  revert pq visited; induction fuel as [|fuel IH]; intros pq visited Hlt;
    [lia|]. cbn [while_pq].
  destruct (heappop pq) as [[[[c node] path] rest]|] eqn:Hpop; [|done].
  apply heappop_length in Hpop. unfold iterations_left in *.
  destruct (decide (node ∈ visited)) as [Hv|Hv]; [apply IH; lia|].
  destruct (String.eqb node destination); [done|].
  unfold neighbors.
  destruct (Dict.get node (adj graph)) as [nbrs|] eqn:Hg; [|done].
  destruct (push_neighbors _ _ _ _ _ _ _ _ rest) as [|pq'] eqn:Hpush; [done|].
  apply push_neighbors_inr in Hpush as (new & -> & Hlen & _).
  pose proof (pending_visit _ _ _ _ Hg Hv).
  apply IH. rewrite length_app. unfold Dict.keys in Hlen.
  rewrite length_map in Hlen. lia.
Qed.

(** A larger allowance does not change what the loop returns. *)
Lemma while_pq_fuel fuel fuel' pq visited r :
  while_pq fuel graph destination alpha beta pq visited = Some r ->
  (fuel <= fuel')%nat ->
  while_pq fuel' graph destination alpha beta pq visited = Some r.
Proof.
  revert fuel' pq visited; induction fuel as [|fuel IH];
    intros fuel' pq visited; [done|].
  destruct fuel' as [|fuel']; [lia|]. intros H Hle. cbn [while_pq] in *.
  destruct (heappop pq) as [[[[c node] path] rest]|]; [|done].
  destruct (decide (node ∈ visited)); [apply IH; [done|lia]|].
  destruct (String.eqb node destination); [done|].
  destruct (neighbors graph node); [done|].
  destruct (push_neighbors _ _ _ _ _ _ _ _ rest); [done|].
  apply IH; [done|lia].
Qed.

Variable source : Stop.

(** *** What every heap entry records *)

Lemma entries_ok_seed :
  entries_ok graph alpha beta source ∅ [(0, source, [])].
Proof.
  intros e ->%list_elem_of_singleton. unfold entry_ok; cbn.
  split_and!; [done|done|constructor|by intros ? ?%elem_of_nil].
Qed.

Lemma entries_ok_visit visited node pq :
  entries_ok graph alpha beta source visited pq ->
  entries_ok graph alpha beta source ({[node]} ∪ visited) pq.
Proof.
  intros H e (? & ? & ? & Hvis)%H. split_and!; [done..|].
  intros x ?%Hvis. apply elem_of_visit. auto.
Qed.

Lemma head_snoc_snoc {A} (l : list A) x y :
  head ((l ++ [x]) ++ [y]) = head (l ++ [x]).
Proof. by destruct l. Qed.

(** The stops of the path of a popped, not yet visited entry are distinct. *)
Lemma entry_ok_NoDup visited e :
  entry_ok graph alpha beta source visited e -> node_of e ∉ visited ->
  NoDup (e.2 ++ [node_of e]).
Proof.
  intros (_ & _ & Hnd & Hvis) Hn. apply NoDup_app. split_and!; [done| |].
  - intros x Hx ->%list_elem_of_singleton. by apply Hn, Hvis.
  - apply NoDup_singleton.
Qed.

(** The entries pushed when [node] is visited are entries of the same kind. *)
Lemma entries_ok_push visited c node path new :
  entry_ok graph alpha beta source visited (c, node, path) ->
  node ∉ visited ->
  (forall e, e ∈ new -> exists v w,
      e = (c + w, v, path ++ [node]) /\
      route_weight graph alpha beta node v = Some w) ->
  entries_ok graph alpha beta source ({[node]} ∪ visited) new.
Proof.
  intros Hok Hn Hnew e (v & w & -> & Hw)%Hnew.
  pose proof (entry_ok_NoDup _ _ Hok Hn) as Hnd.
  destruct Hok as (Hhd & Hpw & _ & Hvis).
  unfold entry_ok, node_of, cost_of in *.
  cbn in *. split_and!.
  - by rewrite head_snoc_snoc.
  - by apply path_weight_snoc.
  - done.
  - intros x [?%Hvis | ->%list_elem_of_singleton]%elem_of_app;
      apply elem_of_visit; auto.
Qed.

(** What the loop returns is the unreachable result, or a path from the
    source to the destination together with its weight. *)
Lemma while_pq_sound fuel pq visited w p :
  entries_ok graph alpha beta source visited pq ->
  while_pq fuel graph destination alpha beta pq visited = Some (inr (w, p)) ->
  (w = Infinity /\ p = []) \/
  (exists c, w = Finite c /\
             path_from_to graph alpha beta source destination p c /\ NoDup p).
Proof.
  revert pq visited; induction fuel as [|fuel IH]; intros pq visited Hok;
    [done|]. cbn [while_pq].
  destruct (heappop pq) as [[[[c node] path] rest]|] eqn:Hpop;
    [|intros [= <- <-]; by left].
  assert (Hrest : entries_ok graph alpha beta source visited rest).
  { intros e He. apply Hok. rewrite (heappop_elem _ _ _ _ Hpop). by right. }
  assert (Hcur : entry_ok graph alpha beta source visited (c, node, path)).
  { apply Hok. rewrite (heappop_elem _ _ _ _ Hpop). by left. }
  destruct (decide (node ∈ visited)) as [Hv|Hv]; [by apply IH|].
  destruct (String.eqb_spec node destination) as [->|Hne].
  - intros [= <- <-]. right. exists c.
    pose proof (entry_ok_NoDup _ _ Hcur Hv) as Hnd.
    destruct Hcur as (Hhd & Hpw & _). unfold path_from_to.
    split_and!; [done|done|by rewrite last_snoc|done|done].
  - destruct (neighbors graph node) as [|nbrs]; [done|].
    destruct (push_neighbors _ _ _ _ _ _ _ _ rest) as [|pq'] eqn:Hpush; [done|].
    apply push_neighbors_inr in Hpush as (new & -> & _ & Hnew & _).
    apply IH. intros e [He|He]%elem_of_app.
    + revert e He. apply (entries_ok_push visited c node path); [done..|].
      intros e (v & w' & ? & ? & ? & ?)%Hnew. exists v, w'. by split.
    + exact (entries_ok_visit visited node rest Hrest e He).
Qed.

(** *** Absence of exceptions *)

(** On a graph whose neighbours are stops and whose routes carry both
    attributes, the loop raises no exception. *)
Lemma while_pq_no_error fuel pq visited r :
  closed graph = true -> attributed graph = true -> nodes_ok graph pq ->
  while_pq fuel graph destination alpha beta pq visited = Some r ->
  exists w p, r = inr (w, p).
Proof.
  intros Hcl Hat.
  revert pq visited; induction fuel as [|fuel IH]; intros pq visited Hok;
    [done|]. cbn [while_pq].
  destruct (heappop pq) as [[[[c node] path] rest]|] eqn:Hpop;
    [|intros [= <-]; eauto].
  assert (Hrest : nodes_ok graph rest).
  { intros e He. apply Hok. rewrite (heappop_elem _ _ _ _ Hpop). by right. }
  assert (Hcur : node ∈ nodes graph).
  { apply (Hok (c, node, path)). rewrite (heappop_elem _ _ _ _ Hpop). by left. }
  destruct (decide (node ∈ visited)) as [Hv|Hv]; [by apply IH|].
  destruct (String.eqb node destination); [intros [= <-]; eauto|].
  apply neighbors_is_node in Hcur as [nbrs Hn]. rewrite Hn.
  destruct (push_neighbors_total ({[node]} ∪ visited) c node (path ++ [node])
              nbrs rest) as [pq' Hpush].
  { intros v Hv'. apply attributed_route; [done|].
    by apply (neighbors_inr _ _ _ _ Hn). }
  rewrite Hpush. apply push_neighbors_inr in Hpush as (new & -> & _ & Hnew & _).
  apply IH. intros e [He|He]%elem_of_app; [|by apply Hrest].
  apply Hnew in He as (v & w & -> & Hv' & _). cbn.
  apply (closed_route _ node); [done|]. by apply (neighbors_inr _ _ _ _ Hn).
Qed.

(** *** Optimality *)

Hypothesis graph_nonnegative : nonnegative graph = true.
Hypothesis alpha_nonnegative : 0 <= alpha.
Hypothesis beta_nonnegative : 0 <= beta.

(** Some entry of the heap costs no more than any given path from the source
    to a stop that is not visited. *)
Lemma heap_below_path visited pq n q wq :
  seed_ok source visited pq -> frontier_ok graph alpha beta source visited pq ->
  n ∉ visited ->
  path_from_to graph alpha beta source n q wq ->
  exists e, e ∈ pq /\ cost_of e <= wq.
Proof.
  intros Hseed Hfr Hn (Hhd & Hl & Hw).
  destruct (decide (source ∈ visited)) as [Hs|Hs].
  - destruct (path_leaves visited q source n)
      as (q1 & u & v & q2 & -> & Hu & Hv); [done..|].
    apply path_weight_app in Hw as (w1 & w2 & Hw1 & Hw2 & ->).
    rewrite path_weight_cons in Hw2.
    destruct (route_weight graph alpha beta u v) as [ruv|] eqn:Hr; [|done].
    destruct (path_weight graph alpha beta (v :: q2)) as [w3|] eqn:Hw3; [|done].
    injection Hw2 as <-.
    apply path_weight_nonneg in Hw3; [|done..].
    destruct (Hfr u Hu) as (du & Hdu & Hout).
    destruct (Hout v ruv Hr Hv) as (c & p & Hin & Hc).
    exists (c, v, p). split; [done|]. cbn.
    assert (du <= w1); [|lia].
    apply (Hdu (q1 ++ [u])). split_and!; [|by rewrite last_snoc|done].
    destruct q1; cbn in *; congruence.
  - exists (0, source, []). split; [by apply Hseed|]. cbn.
    by apply (path_weight_nonneg graph alpha beta q).
Qed.

(** The cost of a popped entry whose stop is not visited is the least
    weight of a path to that stop. *)
Lemma heappop_lower_bound visited pq c node path rest :
  seed_ok source visited pq -> frontier_ok graph alpha beta source visited pq ->
  heappop pq = Some ((c, node, path), rest) -> node ∉ visited ->
  lower_bound graph alpha beta source node c.
Proof.
  intros Hseed Hfr Hpop Hn q wq Hq.
  destruct (heap_below_path visited pq node q wq) as (e & He & Hle); [done..|].
  pose proof (heappop_least _ _ _ _ Hpop He) as Hmin. cbn in Hmin. lia.
Qed.

(** When the destination can be reached and is not visited yet, the loop
    returns a finite weight, the least over all paths to the destination. *)
Lemma while_pq_optimal fuel pq visited w p :
  seed_ok source visited pq -> frontier_ok graph alpha beta source visited pq ->
  destination ∉ visited ->
  (exists q wq, path_from_to graph alpha beta source destination q wq) ->
  while_pq fuel graph destination alpha beta pq visited = Some (inr (w, p)) ->
  exists c, w = Finite c /\ lower_bound graph alpha beta source destination c.
Proof.
  intros Hseed Hfr Hd Hreach. revert pq visited Hseed Hfr Hd.
  induction fuel as [|fuel IH]; intros pq visited Hseed Hfr Hd; [done|].
  cbn [while_pq].
  destruct (heappop pq) as [[[[c node] path] rest]|] eqn:Hpop.
  2:{ apply heappop_None in Hpop as ->. destruct Hreach as (q & wq & Hq).
      destruct (heap_below_path visited [] destination q wq)
        as (e & []%elem_of_nil & _); done. }
  assert (Hkeep : forall e, e ∈ pq -> node_of e ≠ node -> e ∈ rest).
  { intros e He Hne. apply (heappop_elem _ _ _ e Hpop) in He as [->|He]; done. }
  destruct (decide (node ∈ visited)) as [Hv|Hv].
  - apply IH; [| |done].
    + intros Hs. apply Hkeep; [by apply Hseed|]. cbn. by intros ->.
    + intros u Hu. destruct (Hfr u Hu) as (du & Hdu & Hout).
      exists du. split; [done|]. intros v w' Hr Hv'.
      destruct (Hout v w' Hr Hv') as (c' & p' & Hin & Hc).
      exists c', p'. split; [|done]. apply Hkeep; [done|]. cbn. by intros ->.
  - pose proof (heappop_lower_bound _ _ _ _ _ _ Hseed Hfr Hpop Hv) as Hlb.
    destruct (String.eqb_spec node destination) as [->|Hne].
    { intros [= <- <-]. eauto. }
    destruct (neighbors graph node) as [|nbrs] eqn:Hnb; [done|].
    destruct (push_neighbors _ _ _ _ _ _ _ _ rest) as [|pq'] eqn:Hpush; [done|].
    apply push_neighbors_inr in Hpush as (new & -> & _ & _ & Hall).
    apply IH; [| |by apply not_elem_of_visit].
    + intros [Hs1 Hs2]%not_elem_of_visit. apply elem_of_app. right.
      apply Hkeep; [by apply Hseed|]. by cbn.
    + intros u Hu. destruct (decide (u = node)) as [->|Hun].
      * exists c. split; [done|]. intros v w' Hr Hv'.
        destruct (Hall v) as (w'' & Hr' & Hin); [|done|].
        { apply (neighbors_inr _ _ _ _ Hnb).
          by apply (route_weight_has_route _ alpha beta _ _ w'). }
        exists (c + w''), (path ++ [node]).
        split; [apply elem_of_app; by left|].
        rewrite Hr in Hr'. injection Hr' as <-. lia.
      * apply elem_of_visit in Hu as [?|Hu']; [done|].
        destruct (Hfr u Hu') as (du & Hdu & Hout).
        exists du. split; [done|]. intros v w' Hr [Hv1 Hv2]%not_elem_of_visit.
        destruct (Hout v w' Hr Hv2) as (c' & p' & Hin & Hc).
        exists c', p'. split; [|done]. apply elem_of_app. right.
        apply Hkeep; [done|]. by cbn.
Qed.

End Search.

(** ** The search as a whole *)

Lemma nodes_ok_seed g s : s ∈ nodes g -> nodes_ok g [(0, s, [])].
Proof. by intros Hs e ->%list_elem_of_singleton. Qed.

Lemma seed_ok_seed s : seed_ok s ∅ [(0, s, [])].
Proof. intros _. left. Qed.

Lemma frontier_ok_seed g alpha beta s :
  frontier_ok g alpha beta s ∅ [(0, s, [])].
Proof. by intros u ?%not_elem_of_empty. Qed.

(** The search always ends, with a result or with an exception. *)
Lemma search_terminates g s d alpha beta :
  is_Some (multi_criteria_dijkstra g s d alpha beta).
Proof. apply while_pq_terminates. lia. Qed.

(** A returned path leads from the source to the destination, has the
    returned weight and visits no stop twice. *)
Lemma search_sound g s d alpha beta w p :
  multi_criteria_dijkstra g s d alpha beta = Some (inr (w, p)) ->
  (w = Infinity /\ p = []) \/
  (exists c, w = Finite c /\ path_from_to g alpha beta s d p c /\ NoDup p).
Proof. apply while_pq_sound, entries_ok_seed. Qed.

(** The search raises nothing on a closed, attributed graph when the source
    is one of its stops. *)
Lemma search_returns g s d alpha beta :
  closed g = true -> attributed g = true -> s ∈ nodes g ->
  exists w p, multi_criteria_dijkstra g s d alpha beta = Some (inr (w, p)).
Proof.
  intros Hcl Hat Hs.
  destruct (search_terminates g s d alpha beta) as [r Hr].
  destruct (while_pq_no_error g alpha beta d _ _ _ r Hcl Hat
              (nodes_ok_seed g s Hs) Hr) as (w & p & ->).
  eauto.
Qed.

(** No path to the destination: the unreachable result. *)
Lemma search_unreachable g s d alpha beta :
  closed g = true -> attributed g = true -> s ∈ nodes g ->
  ~ reachable g s d ->
  multi_criteria_dijkstra g s d alpha beta = Some (inr (Infinity, [])).
Proof.
  intros Hcl Hat Hs Hno.
  destruct (search_returns g s d alpha beta Hcl Hat Hs) as (w & p & Hr).
  destruct (search_sound _ _ _ _ _ _ _ Hr)
    as [[-> ->]|(c & _ & (Hh & Hl & Hw) & _)]; [done|].
  destruct Hno. exists p. split_and!; [done..|].
  by apply path_weight_routes in Hw.
Qed.

(** On an attributed graph every connected sequence of stops has a weight. *)
Lemma routes_connect_weight g alpha beta q :
  attributed g = true -> routes_connect g q = true ->
  is_Some (path_weight g alpha beta q).
Proof.
  intros Hat. induction q as [|u [|v r] IH]; [done..|].
  cbn [routes_connect]. intros [Huv Hr]%andb_prop.
  rewrite path_weight_cons.
  destruct (attributed_route g alpha beta u v Hat Huv) as [w ->].
  by destruct (IH Hr) as [t ->].
Qed.

(** The destination can be reached: a least-weight path. *)
Lemma search_optimal g s d alpha beta :
  closed g = true -> nonnegative g = true -> 0 <= alpha -> 0 <= beta ->
  s ∈ nodes g ->
  reachable g s d ->
  exists w p,
    multi_criteria_dijkstra g s d alpha beta = Some (inr (Finite w, p)) /\
    path_from_to g alpha beta s d p w /\
    forall q wq, path_from_to g alpha beta s d q wq -> w <= wq.
Proof.
  intros Hcl Hnn Ha Hb Hs (q & Hh & Hl & Hq).
  pose proof (nonnegative_attributed g Hnn) as Hat.
  destruct (search_returns g s d alpha beta Hcl Hat Hs) as (w & p & Hr).
  destruct (routes_connect_weight g alpha beta q Hat Hq) as [wq Hwq].
  assert (Hopt : exists c, w = Finite c /\ lower_bound g alpha beta s d c).
  { eapply (while_pq_optimal g alpha beta d s Hnn Ha Hb);
      [apply seed_ok_seed|apply frontier_ok_seed|apply not_elem_of_empty|
      |exact Hr].
    exists q, wq. by split_and!. }
  destruct Hopt as (c & -> & Hlb).
  destruct (search_sound _ _ _ _ _ _ _ Hr) as [[[=] _]|(c' & [= <-] & Hp & _)].
  exists c, p. by split_and!.
Qed.

(** A missing source that is not the destination: the neighbour lookup of
    the first iteration raises. *)
Lemma search_unknown_source g s d alpha beta :
  has_node g s = false -> s <> d ->
  multi_criteria_dijkstra g s d alpha beta = Some (inl (NetworkXError s)).
Proof.
  intros Hs Hne. unfold multi_criteria_dijkstra.
  cbn [while_pq heappop extract_min].
  destruct (decide (s ∈ (∅ : gset string))) as [[]%not_elem_of_empty|_].
  destruct (String.eqb_spec s d) as [|_]; [done|].
  unfold neighbors. unfold has_node, Dict.mem in Hs.
  by destruct (Dict.get s (adj g)).
Qed.

(** *** Stops that cannot be reached *)

Lemma routes_connect_app g q1 u v q2 :
  routes_connect g (q1 ++ u :: v :: q2) = true -> has_route g u v = true.
Proof.
  induction q1 as [|x [|y q1] IH]; cbn [app routes_connect] in *.
  - by intros [? _]%andb_prop.
  - by intros [_ [? _]%andb_prop]%andb_prop.
  - intros [_ H]%andb_prop. by apply IH.
Qed.

Lemma route_closed_no_path g (S : gset Stop) s d :
  route_closed g S = true -> s ∈ S -> d ∉ S ->
  ~ reachable g s d.
Proof.
  intros Hcl Hs Hd (q & Hh & Hl & Hq).
  destruct (path_leaves S q s d) as (q1 & u & v & q2 & -> & Hu & Hv); [done..|].
  apply routes_connect_app in Hq. unfold route_closed in Hcl.
  rewrite forallb_forall in Hcl.
  specialize (Hcl u). rewrite <- list_elem_of_In, elem_of_elements in Hcl.
  specialize (Hcl Hu).
  destruct (neighbors g u) as [|nbrs] eqn:Hn.
  { unfold neighbors, has_route, getitem in *.
    by destruct (Dict.get u (adj g)). }
  rewrite forallb_forall in Hcl. apply (neighbors_inr _ _ _ v Hn) in Hq.
  apply list_elem_of_In, Hcl, bool_decide_eq_true in Hq. done.
Qed.

(** A stop that is not in a closed graph cannot be reached from one that is. *)
Lemma missing_stop_no_path g s d :
  closed g = true -> has_node g s = true -> has_node g d = false ->
  ~ reachable g s d.
Proof.
  intros Hcl Hs Hd (q & Hh & Hl & Hq).
  destruct (exists_last (l := q)) as (q' & d' & ->); [by intros ->|].
  rewrite last_snoc in Hl. injection Hl as ->.
  destruct (decide (q' = [])) as [->|Hne].
  { cbn in Hh. injection Hh as ->. congruence. }
  destruct (exists_last Hne) as (q'' & u & ->).
  rewrite <- app_assoc in Hq. cbn [app] in Hq.
  apply routes_connect_app, (closed_route g u d Hcl), has_node_nodes in Hq.
  congruence.
Qed.

(** ** Validation *)

Lemma edges_from_elem seen a u v dd :
  (u, v, dd) ∈ edges_from seen a ->
  exists nbrs, (u, nbrs) ∈ a /\ (v, dd) ∈ nbrs.
Proof.
  revert seen; induction a as [|[n nbrs] a IH]; intros seen; cbn [edges_from].
  - by intros ?%elem_of_nil.
  - intros [H|H]%elem_of_app.
    + apply list_elem_of_In, in_map_iff in H as ([v' dd'] & [= <- <- <-] & H).
      apply filter_In in H as [H _]. exists nbrs.
      split; [left|by apply list_elem_of_In].
    + apply IH in H as (nbrs' & ? & ?). exists nbrs'. split; [by right|done].
Qed.

Lemma check_edges_complete es :
  (forall u v dd, (u, v, dd) ∈ es ->
     Dict.mem "time" dd && Dict.mem "cost" dd && Dict.mem "distance" dd
     = true) ->
  check_edges es = (true, success_message).
Proof.
  induction es as [|[[u v] dd] es IH]; intros H; cbn [check_edges]; [done|].
  assert (Hin : (u, v, dd) ∈ (u, v, dd) :: es) by left.
  pose proof (H u v dd Hin) as Hm.
  apply andb_prop in Hm as [Hm ->]. apply andb_prop in Hm as [-> ->]. cbn.
  apply IH. intros u' v' dd' ?. apply (H u' v'). by right.
Qed.

Lemma fully_attributed_edges g u v dd :
  fully_attributed g = true -> (u, v, dd) ∈ edges g ->
  Dict.mem "time" dd && Dict.mem "cost" dd && Dict.mem "distance" dd = true.
Proof.
  unfold fully_attributed, edges.
  intros Hfa (nbrs & Hu%list_elem_of_In & Hv%list_elem_of_In)%edges_from_elem.
  rewrite forallb_forall in Hfa. specialize (Hfa _ Hu). cbn in Hfa.
  rewrite forallb_forall in Hfa. by specialize (Hfa _ Hv).
Qed.

(** A graph without routes has [number_of_edges] 0. *)
Lemma no_routes_number_of_edges g :
  no_routes g = true -> number_of_edges g = 0%nat.
Proof.
  unfold no_routes, number_of_edges. intros H.
  assert (list_sum (map (fun e => degree e.1 e.2) (adj g)) = 0%nat) as ->;
    [|done].
  induction (adj g) as [|[n [|r nbrs]] a IH]; cbn in *; [done| |done].
  exact (IH H).
Qed.

Lemma list_sum_one {A} (f : A -> nat) (l : list A) z :
  z ∈ l -> (f z <= list_sum (map f l))%nat.
Proof.
  unfold list_sum. induction l as [|a l IH]; [by intros ?%elem_of_nil|].
  intros [->|Hz%IH]%elem_of_cons; cbn; lia.
Qed.

Lemma list_sum_two {A} (f : A -> nat) (l : list A) x y :
  x ∈ l -> y ∈ l -> x <> y -> (f x + f y <= list_sum (map f l))%nat.
Proof.
  induction l as [|a l IH]; [by intros ?%elem_of_nil|].
  change (list_sum (map f (a :: l))) with (f a + list_sum (map f l))%nat.
  intros [->|Hx]%elem_of_cons [->|Hy]%elem_of_cons Hne.
  - done.
  - pose proof (list_sum_one f l y Hy). lia.
  - pose proof (list_sum_one f l x Hx). lia.
  - specialize (IH Hx Hy Hne). lia.
Qed.

(** An undirected graph with a route has a positive [number_of_edges]. *)
Lemma has_route_number_of_edges g u v :
  symmetric g = true -> has_route g u v = true -> number_of_edges g <> 0%nat.
Proof.
  unfold symmetric, has_route, getitem, number_of_edges. intros Hsym.
  destruct (Dict.get u (adj g)) as [ns|] eqn:Hu; [|done].
  destruct (Dict.get v ns) as [dd|] eqn:Hv; [intros _|done].
  pose proof Hu as Hu'%dict_get_elem. pose proof Hv as Hv'%dict_get_elem.
  assert (2 <= list_sum (map (fun e => degree e.1 e.2) (adj g)))%nat as Hle.
  2:{ intros H0. apply Nat.div_small_iff in H0; lia. }
  destruct (String.eqb_spec u v) as [->|Hne].
  - transitivity (degree v ns).
    + unfold degree, Dict.mem. rewrite Hv.
      destruct ns; [by inversion Hv'|cbn; lia].
    + apply (list_sum_one (fun e => degree e.1 e.2) (adj g) (v, ns) Hu').
  - rewrite forallb_forall in Hsym. apply list_elem_of_In in Hu', Hv'.
    specialize (Hsym _ Hu'). cbn in Hsym.
    rewrite forallb_forall in Hsym. specialize (Hsym _ Hv'). cbn in Hsym.
    destruct (Dict.get v (adj g)) as [back|] eqn:Hb; [|done].
    destruct (Dict.get u back) as [dd'|] eqn:Hbu; [|done].
    apply dict_get_elem in Hb, Hbu. apply list_elem_of_In in Hu', Hv'.
    pose proof (list_sum_two (fun e => degree e.1 e.2) (adj g) (u, ns) (v, back)
                  Hu' Hb ltac:(congruence)) as Hs.
    assert (1 <= degree u ns)%nat.
    { unfold degree. destruct ns; [by inversion Hv'|cbn; lia]. }
    assert (1 <= degree v back)%nat.
    { unfold degree. destruct back; [by inversion Hbu|cbn; lia]. }
    cbn [fst snd] in Hs. lia.
Qed.

(** ** Example networks *)

(** The graph of [build_transport_graph] is undirected, and its routes
    carry non-negative attributes. *)
Example build_transport_graph_shape :
  nodes build_transport_graph = ["A"; "B"; "C"; "D"; "E"; "F"] /\
  number_of_edges build_transport_graph = 8%nat /\
  symmetric build_transport_graph = true /\
  nonnegative build_transport_graph = true.
Proof. split_and!; vm_compute; reflexivity. Qed.

(** The cheapest route from A to F: two paths cost 12.  The two entries
    for E, both of cost 9, are ordered by their paths, and [A, C] comes
    before [A, C, D]. *)
Example fixture_cost_search :
  multi_criteria_dijkstra build_transport_graph "A" "F" 0 1
    = Some (inr (Finite 12, ["A"; "C"; "E"; "F"])) /\
  path_weight build_transport_graph 0 1 ["A"; "C"; "D"; "E"; "F"] = Some 12.
Proof. split; vm_compute; reflexivity. Qed.

(** A route added without attributes fails validation. *)
Example bare_island_invalid :
  validate_graph bare_island = (false, "Missing weights on edge A - B").
Proof. vm_compute; reflexivity. Qed.

Lemma two_islands_no_path :
  ~ reachable two_islands "A" "C".
Proof.
  apply (route_closed_no_path two_islands {["A"; "B"]}).
  - vm_compute. reflexivity.
  - apply (bool_decide_unpack _). vm_compute. exact I.
  - apply (bool_decide_unpack _). vm_compute. exact I.
Qed.

Lemma bare_island_no_path :
  ~ reachable bare_island "A" "C".
Proof.
  apply (route_closed_no_path bare_island {["A"; "B"]}).
  - vm_compute. reflexivity.
  - apply (bool_decide_unpack _). vm_compute. exact I.
  - apply (bool_decide_unpack _). vm_compute. exact I.
Qed.

(** ** The properties of the specification *)

(** C1. On a network whose routes all carry non-negative [time] and [cost],
    with [alpha >= 0] and [beta >= 0], source and destination stops of the
    network and the destination reachable from the source,
    [multi_criteria_dijkstra] returns a finite weight and a path from the
    source to the destination that has this weight, and no path from the
    source to the destination weighs less.  ([closed] holds of every graph
    that [add_edge] builds, see [closed_add_edge].) *)
Theorem dijkstra_returns_minimum g s d alpha beta :
  closed g = true -> nonnegative g = true -> 0 <= alpha -> 0 <= beta ->
  has_node g s = true -> has_node g d = true ->
  reachable g s d ->
  exists w p,
    multi_criteria_dijkstra g s d alpha beta = Some (inr (Finite w, p)) /\
    path_from_to g alpha beta s d p w /\
    forall q,
      head q = Some s -> last q = Some d -> routes_connect g q = true ->
      exists wq, path_weight g alpha beta q = Some wq /\ w <= wq.
Proof.
  intros Hcl Hnn Ha Hb Hs%has_node_nodes _ Hreach.
  destruct (search_optimal g s d alpha beta) as (w & p & Hr & Hp & Hmin);
    [done..|].
  exists w, p. split_and!; [done..|]. intros q Hh Hl Hq.
  destruct (routes_connect_weight g alpha beta q) as [wq Hwq];
    [by apply nonnegative_attributed|done|].
  exists wq. split; [done|]. by apply (Hmin q).
Qed.

Lemma dijkstra_returns_minimum_witness :
  exists w p,
    multi_criteria_dijkstra build_transport_graph "A" "F" 2 3
      = Some (inr (Finite w, p)) /\
    path_from_to build_transport_graph 2 3 "A" "F" p w /\
    forall q,
      head q = Some "A" -> last q = Some "F" ->
      routes_connect build_transport_graph q = true ->
      exists wq, path_weight build_transport_graph 2 3 q = Some wq /\ w <= wq.
Proof.
  apply (dijkstra_returns_minimum build_transport_graph "A" "F" 2 3);
    [vm_compute; reflexivity|vm_compute; reflexivity|lia|lia
    |vm_compute; reflexivity|vm_compute; reflexivity|].
  exists ["A"; "B"; "D"; "F"]. split_and!; vm_compute; reflexivity.
Defined.

(** C2. Whenever [multi_criteria_dijkstra] returns a non-empty path, the
    returned weight is the sum of [alpha * time + beta * cost] over the
    routes between the consecutive stops of that path. *)
Theorem returned_weight_is_path_weight g s d alpha beta w p :
  multi_criteria_dijkstra g s d alpha beta = Some (inr (w, p)) -> p <> [] ->
  exists c, w = Finite c /\ path_weight g alpha beta p = Some c.
Proof.
  intros [[_ ->]|(c & -> & (_ & _ & Hw) & _)]%search_sound Hne; [done|eauto].
Qed.

Lemma returned_weight_is_path_weight_witness :
  exists c, Finite 12 = Finite c /\
    path_weight build_transport_graph 0 1 ["A"; "C"; "E"; "F"] = Some c.
Proof.
  apply (returned_weight_is_path_weight build_transport_graph "A" "F" 0 1);
    [vm_compute; reflexivity|discriminate].
Defined.

(** C3. [validate_graph] checks in order and stops at the first failure: a
    network without stops gives [(False, "Graph has no nodes")]; a network
    with a stop but without routes gives [(False, "Graph has no edges")]; a
    network with stops and routes whose routes all carry [time], [cost] and
    [distance] gives [(True, success message)].  (What [number_of_edges]
    counts is stated by [no_routes_number_of_edges] and
    [has_route_number_of_edges].) *)
Theorem validate_graph_in_order g :
  (number_of_nodes g = 0%nat ->
   validate_graph g = (false, "Graph has no nodes")) /\
  (number_of_nodes g <> 0%nat -> number_of_edges g = 0%nat ->
   validate_graph g = (false, "Graph has no edges")) /\
  (number_of_nodes g <> 0%nat -> number_of_edges g <> 0%nat ->
   fully_attributed g = true ->
   validate_graph g = (true, success_message)).
Proof.
  unfold validate_graph. split_and!.
  - by intros ->.
  - intros Hn ->. by destruct (Nat.eqb_spec (number_of_nodes g) 0).
  - intros Hn He Hfa.
    destruct (Nat.eqb_spec (number_of_nodes g) 0); [done|].
    destruct (Nat.eqb_spec (number_of_edges g) 0); [done|].
    apply check_edges_complete. intros u v dd.
    by apply fully_attributed_edges.
Qed.

Lemma validate_graph_in_order_witness :
  validate_graph empty_graph = (false, "Graph has no nodes") /\
  validate_graph lonely_stop = (false, "Graph has no edges") /\
  validate_graph build_transport_graph = (true, success_message).
Proof.
  split_and!.
  - apply (proj1 (validate_graph_in_order empty_graph)). reflexivity.
  - apply (proj1 (proj2 (validate_graph_in_order lonely_stop)));
      [vm_compute; discriminate|vm_compute; reflexivity].
  - apply (proj2 (proj2 (validate_graph_in_order build_transport_graph)));
      [vm_compute; discriminate|vm_compute; discriminate|].
    vm_compute; reflexivity.
Defined.

(** C4. For a stop [s] of the network, the search from [s] to [s] returns
    weight 0 and the path [[s]], whatever [alpha] and [beta]. *)
Theorem same_stop_zero_weight g s alpha beta :
  has_node g s = true ->
  multi_criteria_dijkstra g s s alpha beta = Some (inr (Finite 0, [s])).
Proof.
  intros _. unfold multi_criteria_dijkstra.
  cbn [while_pq heappop extract_min].
  destruct (decide (s ∈ (∅ : gset string))) as [[]%not_elem_of_empty|_].
  by rewrite String.eqb_refl.
Qed.

Lemma same_stop_zero_weight_witness :
  multi_criteria_dijkstra build_transport_graph "D" "D" 5 (-7)
    = Some (inr (Finite 0, ["D"])).
Proof.
  apply (same_stop_zero_weight build_transport_graph "D" 5 (-7)).
  vm_compute; reflexivity.
Defined.

(** C5, as stated, fails: stops A and C of [bare_island] are not connected,
    yet the search from A to C raises [KeyError], because the route A-B has
    no [time] attribute. *)
Lemma unreachable_bare_route_raises :
  has_node bare_island "A" = true /\ has_node bare_island "C" = true /\
  ~ reachable bare_island "A" "C" /\
  multi_criteria_dijkstra bare_island "A" "C" 1 1
    = Some (inl (KeyError "time")) /\
  multi_criteria_dijkstra bare_island "A" "C" 1 1 <> Some (inr (Infinity, [])).
Proof.
  split_and!; [vm_compute; reflexivity..|exact bare_island_no_path| |].
  - vm_compute; reflexivity.
  - vm_compute. discriminate.
Qed.

(** C5, amended. On a network whose routes all carry [time] and [cost], for
    source and destination stops of the network between which there is no
    path, the search returns [(inf, [])] as a value and raises nothing. *)
Theorem unreachable_returns_infinity g s d alpha beta :
  closed g = true -> attributed g = true ->
  has_node g s = true -> has_node g d = true ->
  ~ reachable g s d ->
  multi_criteria_dijkstra g s d alpha beta = Some (inr (Infinity, [])).
Proof.
  intros Hcl Hat Hs%has_node_nodes _ Hno. by apply search_unreachable.
Qed.

Lemma unreachable_returns_infinity_witness :
  multi_criteria_dijkstra two_islands "A" "C" 1 1 = Some (inr (Infinity, [])).
Proof.
  apply (unreachable_returns_infinity two_islands "A" "C" 1 1);
    [vm_compute; reflexivity..|exact two_islands_no_path].
Defined.

(** C6, as stated, fails: Z is not a stop of the network built by
    [build_transport_graph], yet the search from A to Z raises nothing and
    returns [(inf, [])]. *)
Lemma missing_destination_not_detected :
  has_node build_transport_graph "Z" = false /\
  multi_criteria_dijkstra build_transport_graph "A" "Z" 1 0
    = Some (inr (Infinity, [])) /\
  ~ (exists e, multi_criteria_dijkstra build_transport_graph "A" "Z" 1 0
               = Some (inl e)).
Proof.
  split_and!; [vm_compute; reflexivity..|].
  intros [e He]. vm_compute in He. discriminate.
Qed.

(** C6, amended. With source and destination different: when the source is
    not a stop of the network, the search fails with the [NetworkXError] of
    the neighbour lookup; when the source is a stop of a network whose routes
    all carry [time] and [cost] and the destination is not a stop, the
    search does not fail and returns [(inf, [])]. *)
Theorem missing_stop_outcome g s d alpha beta :
  s <> d ->
  (has_node g s = false ->
   multi_criteria_dijkstra g s d alpha beta = Some (inl (NetworkXError s))) /\
  (closed g = true -> attributed g = true ->
   has_node g s = true -> has_node g d = false ->
   multi_criteria_dijkstra g s d alpha beta = Some (inr (Infinity, []))).
Proof.
  intros Hne. split.
  - intros Hs. by apply search_unknown_source.
  - intros Hcl Hat Hs Hd. apply search_unreachable; [done..| |].
    + by apply has_node_nodes.
    + by apply missing_stop_no_path.
Qed.

Lemma missing_stop_outcome_witness :
  multi_criteria_dijkstra build_transport_graph "Z" "A" 1 0
    = Some (inl (NetworkXError "Z")) /\
  multi_criteria_dijkstra build_transport_graph "A" "Z" 1 0
    = Some (inr (Infinity, [])).
Proof.
  split.
  - apply (missing_stop_outcome build_transport_graph "Z" "A" 1 0);
      [discriminate|vm_compute; reflexivity].
  - apply (missing_stop_outcome build_transport_graph "A" "Z" 1 0);
      [discriminate|vm_compute; reflexivity..].
Defined.

(** C7. On the network of [build_transport_graph], the search from A to F
    with [alpha = 1] and [beta = 0] returns weight 33 and the path
    [A, C, E, F]; no path from A to F takes less time; the path
    [A, C, D, E, F] takes 37, not 29. *)
Theorem fixture_time_optimal :
  multi_criteria_dijkstra build_transport_graph "A" "F" 1 0
    = Some (inr (Finite 33, ["A"; "C"; "E"; "F"])) /\
  path_from_to build_transport_graph 1 0 "A" "F" ["A"; "C"; "E"; "F"] 33 /\
  (forall q,
     head q = Some "A" -> last q = Some "F" ->
     routes_connect build_transport_graph q = true ->
     exists wq,
       path_weight build_transport_graph 1 0 q = Some wq /\ 33 <= wq) /\
  path_weight build_transport_graph 1 0 ["A"; "C"; "D"; "E"; "F"] = Some 37.
Proof.
  assert (Hrun : multi_criteria_dijkstra build_transport_graph "A" "F" 1 0
                 = Some (inr (Finite 33, ["A"; "C"; "E"; "F"])))
    by (vm_compute; reflexivity).
  assert (Hnn : nonnegative build_transport_graph = true)
    by (vm_compute; reflexivity).
  split_and!.
  - exact Hrun.
  - vm_compute. split_and!; reflexivity.
  - intros q Hh Hl Hq.
    destruct (routes_connect_weight build_transport_graph 1 0 q)
      as [wq Hwq]; [apply nonnegative_attributed; exact Hnn|exact Hq|].
    exists wq. split; [exact Hwq|].
    destruct (search_optimal build_transport_graph "A" "F" 1 0)
      as (w & p & Hr & _ & Hmin).
    + apply closed_build_transport_graph.
    + exact Hnn.
    + lia.
    + lia.
    + apply has_node_nodes. vm_compute; reflexivity.
    + exists q. split_and!; assumption.
    + rewrite Hrun in Hr. injection Hr as <- <-.
      apply (Hmin q wq). split_and!; assumption.
  - vm_compute; reflexivity.
Qed.

(** C8. [multi_criteria_dijkstra] terminates on every network, for every
    source, destination, [alpha] and [beta]: the loop ends, with a result or
    an exception, within the iterations allowed by [iterations_left], which
    charges every stop once, and allowing more iterations changes nothing. *)
Theorem dijkstra_terminates g s d alpha beta :
  exists r,
    multi_criteria_dijkstra g s d alpha beta = Some r /\
    forall extra,
      while_pq (S (iterations_left g [(0, s, [])] ∅) + extra) g d alpha beta
        [(0, s, [])] ∅ = Some r.
Proof.
  destruct (search_terminates g s d alpha beta) as [r Hr]. exists r.
  split; [done|]. intros extra.
  apply (while_pq_fuel g alpha beta d _ _ _ _ r Hr). lia.
Qed.

(** C9. Whenever [multi_criteria_dijkstra] returns a non-empty path, the
    path starts at the source, ends at the destination, joins consecutive
    stops by routes of the network, and contains no stop twice. *)
Theorem returned_path_is_simple g s d alpha beta w p :
  multi_criteria_dijkstra g s d alpha beta = Some (inr (w, p)) -> p <> [] ->
  head p = Some s /\ last p = Some d /\ routes_connect g p = true /\ NoDup p.
Proof.
  intros [[_ ->]|(c & -> & (Hh & Hl & Hw) & Hnd)]%search_sound Hne; [done|].
  split_and!; [done..| |done]. by apply path_weight_routes in Hw.
Qed.

Lemma returned_path_is_simple_witness :
  head ["A"; "C"; "E"; "F"] = Some "A" /\
  last ["A"; "C"; "E"; "F"] = Some "F" /\
  routes_connect build_transport_graph ["A"; "C"; "E"; "F"] = true /\
  NoDup ["A"; "C"; "E"; "F"].
Proof.
  apply (returned_path_is_simple build_transport_graph "A" "F" 1 0 (Finite 33));
    [vm_compute; reflexivity|discriminate].
Defined.

(** C10. For an identifier [s] that is not a stop of the network, the
    search from [s] to [s] still returns [(0, [s])] and raises nothing: the
    destination test comes before the neighbour lookup. *)
Theorem unknown_same_stop_zero_weight g s alpha beta :
  has_node g s = false ->
  multi_criteria_dijkstra g s s alpha beta = Some (inr (Finite 0, [s])).
Proof.
  intros _. unfold multi_criteria_dijkstra.
  cbn [while_pq heappop extract_min].
  destruct (decide (s ∈ (∅ : gset string))) as [[]%not_elem_of_empty|_].
  by rewrite String.eqb_refl.
Qed.

Lemma unknown_same_stop_zero_weight_witness :
  multi_criteria_dijkstra build_transport_graph "Z" "Z" 1 0
    = Some (inr (Finite 0, ["Z"])).
Proof.
  apply (unknown_same_stop_zero_weight build_transport_graph "Z" 1 0).
  vm_compute; reflexivity.
Defined.

(** * Further properties of the code *)

(** ** Dictionaries: lookup after update *)

Lemma dict_get_set_eq {V} (k : string) (v : V) (d : Dict.t V) :
  Dict.get k (Dict.set k v d) = Some v.
Proof.
  induction d as [|[k0 v0] d IH]; cbn.
  - by rewrite String.eqb_refl.
  - destruct (String.eqb_spec k k0) as [->|Hne]; cbn.
    + by rewrite String.eqb_refl.
    + by destruct (String.eqb_spec k k0).
Qed.

Lemma dict_get_set_ne {V} (k k' : string) (v : V) (d : Dict.t V) :
  k' <> k -> Dict.get k' (Dict.set k v d) = Dict.get k' d.
Proof.
  intros Hne. induction d as [|[k0 v0] d IH]; cbn.
  - by destruct (String.eqb_spec k' k).
  - destruct (String.eqb_spec k k0) as [->|Hk]; cbn.
    + by destruct (String.eqb_spec k' k0).
    + by rewrite IH.
Qed.

Lemma dict_get_set {V} (k k' : string) (v : V) (d : Dict.t V) :
  Dict.get k' (Dict.set k v d)
  = if String.eqb k' k then Some v else Dict.get k' d.
Proof.
  destruct (String.eqb_spec k' k) as [->|Hne];
    [apply dict_get_set_eq|by apply dict_get_set_ne].
Qed.

Lemma dict_get_ensure_node n a k :
  Dict.get k (ensure_node n a)
  = match Dict.get k a with
    | Some nbrs => Some nbrs
    | None => if String.eqb k n then Some [] else None
    end.
Proof.
  unfold ensure_node, Dict.mem. destruct (Dict.get n a) as [x|] eqn:Hn.
  - destruct (Dict.get k a) eqn:Hk; [done|].
    destruct (String.eqb_spec k n) as [->|]; congruence.
  - rewrite dict_get_set. destruct (String.eqb_spec k n) as [->|].
    + by rewrite Hn.
    + by destruct (Dict.get k a).
Qed.

Lemma adj_of_ensure_node n a k :
  adj_of (ensure_node n a) k = adj_of a k.
Proof.
  unfold adj_of. rewrite dict_get_ensure_node.
  destruct (Dict.get k a); [done|]. by destruct (String.eqb k n).
Qed.

Lemma route_data_adj_of g u v :
  route_data g u v = Dict.get v (adj_of (adj g) u).
Proof. unfold route_data, adj_of. by destruct (Dict.get u (adj g)). Qed.

Lemma getitem_route_data g u v dd :
  getitem g u v = inr dd <-> route_data g u v = Some dd.
Proof.
  unfold getitem, route_data. destruct (Dict.get u (adj g)) as [nbrs|].
  - destruct (Dict.get v nbrs); split; congruence.
  - split; congruence.
Qed.

Lemma has_route_route_data g u v :
  has_route g u v = true <-> is_Some (route_data g u v).
Proof.
  unfold has_route. destruct (getitem g u v) as [e|dd] eqn:H.
  - split; [done|]. intros [dd Hd]. apply getitem_route_data in Hd. congruence.
  - apply getitem_route_data in H. rewrite H. split; eauto.
Qed.

(** ** [add_edge]: what it stores and what it leaves alone *)

(** The data [add_edge] stores: the attributes given, merged into the data
    the route already had. *)
Lemma route_data_add_edge g u v attr n m :
  route_data (add_edge g u v attr) n m
  = if bool_decide ((n = u /\ m = v) \/ (n = v /\ m = u))
    then Some (Dict.update attr (default [] (route_data g u v)))
    else route_data g n m.
Proof.
  rewrite !route_data_adj_of. unfold add_edge. cbn [adj].
  rewrite !adj_of_ensure_node.
  unfold default. set (dd := Dict.update attr _). clearbody dd.
  set (a2 := ensure_node v (ensure_node u (adj g))).
  assert (Ha2 : forall k, adj_of a2 k = adj_of (adj g) k).
  { intros k. unfold a2. by rewrite !adj_of_ensure_node. }
  set (a3 := Dict.set u (Dict.set v dd (adj_of (adj g) u)) a2).
  assert (Ha3 : forall k, adj_of a3 k
            = if String.eqb k u then Dict.set v dd (adj_of (adj g) u)
              else adj_of (adj g) k).
  { intros k. unfold adj_of at 1. unfold a3. rewrite dict_get_set.
    destruct (String.eqb k u); [done|]. apply Ha2. }
  unfold adj_of at 1. rewrite dict_get_set.
  destruct (String.eqb_spec n v) as [->|Hnv].
  - rewrite dict_get_set, Ha3.
    destruct (String.eqb_spec m u) as [->|Hmu].
    + rewrite bool_decide_eq_true_2; [done|]. by right.
    + destruct (String.eqb_spec v u) as [->|Hvu].
      * rewrite dict_get_set_ne by done.
        rewrite bool_decide_eq_false_2; [done|]. intros [[_ ?]|[_ ?]]; done.
      * rewrite bool_decide_eq_false_2; [done|]. intros [[? _]|[_ ?]]; done.
  - fold (adj_of a3 n). rewrite Ha3.
    destruct (String.eqb_spec n u) as [->|Hnu].
    + rewrite dict_get_set. destruct (String.eqb_spec m v) as [->|Hmv].
      * rewrite bool_decide_eq_true_2; [done|]. by left.
      * rewrite bool_decide_eq_false_2; [done|]. intros [[_ ?]|[? _]]; done.
    + rewrite bool_decide_eq_false_2; [done|]. intros [[? _]|[? _]]; done.
Qed.

Lemma has_node_add_edge g u v attr n :
  has_node (add_edge g u v attr) n
  = has_node g n || String.eqb n u || String.eqb n v.
Proof.
  unfold has_node, Dict.mem, add_edge. cbn [adj].
  rewrite !dict_get_set, !dict_get_ensure_node.
  destruct (String.eqb n v), (String.eqb n u), (Dict.get n (adj g));
    by rewrite ?orb_true_r.
Qed.

(** ** Well-formed graphs *)

Lemma dict_keys_set {V} (k : string) (v : V) (d : Dict.t V) :
  Dict.keys (Dict.set k v d)
  = if Dict.mem k d then Dict.keys d else Dict.keys d ++ [k].
Proof.
  unfold Dict.mem, Dict.keys. induction d as [|[k0 v0] d IH]; cbn; [done|].
  destruct (String.eqb_spec k k0) as [->|Hne]; cbn; [done|].
  rewrite IH. by destruct (Dict.get k d).
Qed.

Lemma dict_keys_set_NoDup {V} (k : string) (v : V) (d : Dict.t V) :
  NoDup (Dict.keys d) -> NoDup (Dict.keys (Dict.set k v d)).
Proof.
  intros Hnd. rewrite dict_keys_set. destruct (Dict.mem k d) eqn:Hm; [done|].
  apply NoDup_app. split_and!; [done| |apply NoDup_singleton].
  intros x Hx ->%list_elem_of_singleton.
  apply dict_mem_keys in Hx. congruence.
Qed.

(** With distinct keys, the bindings of a dictionary are its lookups. *)
Lemma dict_elem_get {V} (k : string) (v : V) (d : Dict.t V) :
  NoDup (Dict.keys d) -> (k, v) ∈ d <-> Dict.get k d = Some v.
Proof.
  intros Hnd. split; [|apply dict_get_elem].
  induction d as [|[k0 v0] d IH]; cbn; [by intros ?%elem_of_nil|].
  cbn in Hnd. apply NoDup_cons in Hnd as [Hk0 Hnd].
  intros [[= -> ->]|Hin]%elem_of_cons.
  - by rewrite String.eqb_refl.
  - destruct (String.eqb_spec k k0) as [->|Hne]; [|by apply IH].
    destruct Hk0. apply list_elem_of_fmap. by exists (k0, v).
Qed.

Lemma keys_unique_spec g :
  keys_unique g = true <->
  NoDup (Dict.keys (adj g)) /\
  forall n nbrs, (n, nbrs) ∈ adj g -> NoDup (Dict.keys nbrs).
Proof.
  unfold keys_unique. rewrite andb_true_iff, bool_decide_eq_true.
  rewrite forallb_forall. split; intros [H1 H2]; (split; [done|]).
  - intros n nbrs Hn%list_elem_of_In. apply H2 in Hn.
    by apply bool_decide_eq_true in Hn.
  - intros [n nbrs] Hn%list_elem_of_In. apply bool_decide_eq_true. eauto.
Qed.

(** In a graph with distinct keys, a stored route is a route that lookup
    finds. *)
Lemma route_elem_data g n nbrs m dd :
  keys_unique g = true ->
  (n, nbrs) ∈ adj g -> (m, dd) ∈ nbrs -> route_data g n m = Some dd.
Proof.
  intros [Hk Hin]%keys_unique_spec Hn Hm. unfold route_data.
  rewrite (proj1 (dict_elem_get n nbrs (adj g) Hk) Hn).
  apply dict_elem_get; [by eapply Hin|done].
Qed.

Lemma route_data_elem g n m dd :
  route_data g n m = Some dd ->
  exists nbrs, (n, nbrs) ∈ adj g /\ (m, dd) ∈ nbrs.
Proof.
  unfold route_data. destruct (Dict.get n (adj g)) as [nbrs|] eqn:Hn; [|done].
  intros Hm. exists nbrs. split; by apply dict_get_elem.
Qed.

(** With distinct keys, [symmetric] says that the graph is undirected. *)
Lemma symmetric_undirected g :
  keys_unique g = true -> symmetric g = true <-> undirected g.
Proof.
  intros Hku. unfold symmetric. rewrite forallb_forall. split.
  - intros Hsym.
    assert (Hhalf : forall u v dd,
              route_data g u v = Some dd -> route_data g v u = Some dd).
    { intros u v dd (nbrs & Hu%list_elem_of_In & Hv%list_elem_of_In)%route_data_elem.
      specialize (Hsym _ Hu). cbn in Hsym. rewrite forallb_forall in Hsym.
      specialize (Hsym _ Hv). cbn in Hsym. unfold route_data.
      destruct (Dict.get v (adj g)) as [back|]; [|done].
      destruct (Dict.get u back) as [dd'|]; [|done].
      by apply bool_decide_eq_true in Hsym as ->. }
    intros u v. destruct (route_data g u v) as [dd|] eqn:Huv.
    + symmetry. by apply Hhalf.
    + destruct (route_data g v u) as [dd|] eqn:Hvu; [|done].
      apply Hhalf in Hvu. congruence.
  - intros Hun [n nbrs] Hn%list_elem_of_In. apply forallb_forall.
    intros [m dd] Hm%list_elem_of_In. cbn in *.
    pose proof (route_elem_data g n nbrs m dd Hku Hn Hm) as Hd.
    rewrite Hun in Hd. unfold route_data in Hd.
    destruct (Dict.get m (adj g)) as [back|]; [|done]. rewrite Hd.
    by apply bool_decide_eq_true.
Qed.

Lemma well_formed_spec g :
  well_formed g = true <->
  keys_unique g = true /\ closed g = true /\ undirected g.
Proof.
  unfold well_formed. rewrite !andb_true_iff. split.
  - intros [[Hk Hc] Hs]. split_and!; [done..|]. by apply symmetric_undirected.
  - intros (Hk & Hc & Hu). split_and!; [done..|]. by apply symmetric_undirected.
Qed.

Lemma undirected_add_edge g u v attr :
  undirected g -> undirected (add_edge g u v attr).
Proof.
  intros Hun n m. rewrite !route_data_add_edge, (Hun n m).
  apply (f_equal (fun b : bool => if b then _ else _)).
  apply bool_decide_ext. tauto.
Qed.

Lemma keys_unique_add_edge g u v attr :
  keys_unique g = true -> keys_unique (add_edge g u v attr) = true.
Proof.
  rewrite !keys_unique_spec. intros [Hk Hin]. unfold add_edge. cbn [adj].
  set (dd := Dict.update attr _). clearbody dd.
  assert (Hen : forall n a,
    (NoDup (Dict.keys a) /\
     forall k nbrs, (k, nbrs) ∈ a -> NoDup (Dict.keys nbrs)) ->
    NoDup (Dict.keys (ensure_node n a)) /\
    forall k nbrs, (k, nbrs) ∈ ensure_node n a -> NoDup (Dict.keys nbrs)).
  { intros n a [H1 H2]. unfold ensure_node. destruct (Dict.mem n a); [done|].
    split; [by apply dict_keys_set_NoDup|].
    intros k nbrs [H|[_ ->]]%dict_set_elem; [by eapply H2|constructor]. }
  assert (Hadj : forall a k,
    (forall k nbrs, (k, nbrs) ∈ a -> NoDup (Dict.keys nbrs)) ->
    NoDup (Dict.keys (adj_of a k))).
  { intros a k H2. unfold adj_of.
    destruct (Dict.get k a) as [nbrs|] eqn:Hg; [|constructor].
    apply dict_get_elem in Hg. by eapply H2. }
  assert (Hset : forall n m a,
    (NoDup (Dict.keys a) /\
     forall k nbrs, (k, nbrs) ∈ a -> NoDup (Dict.keys nbrs)) ->
    NoDup (Dict.keys (Dict.set n (Dict.set m dd (adj_of a n)) a)) /\
    forall k nbrs,
      (k, nbrs) ∈ Dict.set n (Dict.set m dd (adj_of a n)) a ->
      NoDup (Dict.keys nbrs)).
  { intros n m a [H1 H2]. split; [by apply dict_keys_set_NoDup|].
    intros k nbrs [H|[_ ->]]%dict_set_elem; [by eapply H2|].
    by apply dict_keys_set_NoDup, Hadj. }
  do 2 apply Hset. by do 2 apply Hen.
Qed.

Lemma well_formed_empty_graph : well_formed empty_graph = true.
Proof. reflexivity. Qed.

Lemma well_formed_add_edge_lemma g u v attr :
  well_formed g = true -> well_formed (add_edge g u v attr) = true.
Proof.
  rewrite !well_formed_spec. intros (Hk & Hc & Hu).
  split_and!;
    [by apply keys_unique_add_edge|by apply closed_add_edge
    |by apply undirected_add_edge].
Qed.

(** ** The loop of [build_transport_graph] *)

Lemma build_transport_graph_add_routes :
  build_transport_graph = add_routes routes empty_graph.
Proof. reflexivity. Qed.

Lemma add_routes_app rs1 rs2 G :
  add_routes (rs1 ++ rs2) G = add_routes rs2 (add_routes rs1 G).
Proof. unfold add_routes. apply fold_left_app. Qed.

Lemma add_routes_cons u v t c d rs G :
  add_routes ((u, v, t, c, d) :: rs) G
  = add_routes rs
      (add_edge G u v [("time", t); ("cost", c); ("distance", d)]).
Proof. reflexivity. Qed.

(** The three attributes of a tuple are what lookup finds in the stored
    data, whatever the route carried before. *)
Lemma update_weights (t c d : Z) (old : EdgeData) :
  let data := Dict.update [("time", t); ("cost", c); ("distance", d)] old in
  Dict.get "time" data = Some t /\ Dict.get "cost" data = Some c /\
  Dict.get "distance" data = Some d.
Proof.
  cbn. rewrite !dict_get_set. cbn. done.
Qed.

(** Routes that the list does not mention are left as they were. *)
Lemma add_routes_frame rs G n m :
  (forall r, r ∈ rs -> ~ joins r n m) ->
  route_data (add_routes rs G) n m = route_data G n m.
Proof.
  revert G; induction rs as [|[[[[u v] t] c] d] rs IH]; intros G Hno; [done|].
  rewrite add_routes_cons, IH by (intros r Hr; apply Hno; by right).
  rewrite route_data_add_edge, bool_decide_eq_false_2; [done|].
  intros H. apply (Hno (u, v, t, c, d)); [left|]. cbn.
  destruct H as [[-> ->]|[-> ->]]; auto.
Qed.

Lemma joins_sym r u v : joins r u v <-> joins r v u.
Proof. destruct r as [[[[a b] t] c] d]. cbn. tauto. Qed.

Lemma well_formed_add_routes rs G :
  well_formed G = true -> well_formed (add_routes rs G) = true.
Proof.
  revert G; induction rs as [|[[[[u v] t] c] d] rs IH]; intros G HG; [done|].
  rewrite add_routes_cons. by apply IH, well_formed_add_edge_lemma.
Qed.

Lemma fully_attributed_spec g :
  fully_attributed g = true <->
  forall n nbrs m data,
    (n, nbrs) ∈ adj g -> (m, data) ∈ nbrs -> has_weights data = true.
Proof.
  unfold fully_attributed. rewrite forallb_forall. split.
  - intros H n nbrs m data Hn%list_elem_of_In Hm%list_elem_of_In.
    specialize (H _ Hn). cbn in H. rewrite forallb_forall in H.
    apply (H _ Hm).
  - intros H [n nbrs] Hn%list_elem_of_In. apply forallb_forall.
    intros [m data] Hm%list_elem_of_In. cbn. eauto.
Qed.

Lemma has_weights_update t c d old :
  has_weights (Dict.update [("time", t); ("cost", c); ("distance", d)] old)
  = true.
Proof.
  destruct (update_weights t c d old) as (Ht & Hc & Hd).
  unfold has_weights, Dict.mem. by rewrite Ht, Hc, Hd.
Qed.

Lemma fully_attributed_add_edge g u v t c d :
  fully_attributed g = true ->
  fully_attributed
    (add_edge g u v [("time", t); ("cost", c); ("distance", d)]) = true.
Proof.
  rewrite !fully_attributed_spec. intros Hfa. unfold add_edge. cbn [adj].
  set (dd := Dict.update _ _).
  assert (Hdd : has_weights dd = true) by apply has_weights_update.
  clearbody dd.
  set (P := fun a : Dict.t (Dict.t EdgeData) =>
    forall n nbrs m data,
      (n, nbrs) ∈ a -> (m, data) ∈ nbrs -> has_weights data = true).
  assert (Hen : forall n a, P a -> P (ensure_node n a)).
  { intros n a Ha k nbrs m data Hk Hm. unfold ensure_node in Hk.
    destruct (Dict.mem n a); [by eapply Ha|].
    apply dict_set_elem in Hk as [Hk|[_ ->]]; [by eapply Ha|].
    by apply elem_of_nil in Hm. }
  assert (Hset : forall n m a,
            P a -> P (Dict.set n (Dict.set m dd (adj_of a n)) a)).
  { intros n m a Ha k nbrs m' data Hk Hm.
    apply dict_set_elem in Hk as [Hk|[_ ->]]; [by eapply Ha|].
    apply dict_set_elem in Hm as [Hm|[_ ->]]; [|done].
    unfold adj_of in Hm. destruct (Dict.get n a) as [ns|] eqn:Hn.
    - apply dict_get_elem in Hn. by eapply Ha.
    - by apply elem_of_nil in Hm. }
  change (P (adj g)) in Hfa. do 2 apply Hset. by do 2 apply Hen.
Qed.

Lemma fully_attributed_add_routes rs G :
  fully_attributed G = true -> fully_attributed (add_routes rs G) = true.
Proof.
  revert G; induction rs as [|[[[[u v] t] c] d] rs IH]; intros G HG; [done|].
  rewrite add_routes_cons. by apply IH, fully_attributed_add_edge.
Qed.

(** X1. The loop of [build_transport_graph] stores what the list says: for
    the last tuple of the list that joins two stops [u] and [v], in either
    order, the finished graph holds one and the same data in both
    directions, and its [time], [cost] and [distance] are the tuple's. *)
Theorem add_routes_stores rs1 rs2 G u v t c d :
  (forall r, r ∈ rs2 -> ~ joins r u v) ->
  exists data,
    route_data (add_routes (rs1 ++ (u, v, t, c, d) :: rs2) G) u v = Some data /\
    route_data (add_routes (rs1 ++ (u, v, t, c, d) :: rs2) G) v u = Some data /\
    Dict.get "time" data = Some t /\ Dict.get "cost" data = Some c /\
    Dict.get "distance" data = Some d.
Proof.
  intros Hno. rewrite add_routes_app, add_routes_cons.
  set (G1 := add_routes rs1 G).
  rewrite !add_routes_frame; [|intros r Hr ?%joins_sym; by eapply Hno|done].
  rewrite !route_data_add_edge.
  rewrite !bool_decide_eq_true_2 by tauto.
  eexists. split_and!; [done|done|apply update_weights..].
Qed.

Lemma add_routes_stores_witness :
  exists data,
    route_data
      (add_routes ([("A", "B", 1, 1, 1)] ++ [("B", "A", 7, 8, 9)]) empty_graph)
      "B" "A" = Some data /\
    route_data
      (add_routes ([("A", "B", 1, 1, 1)] ++ [("B", "A", 7, 8, 9)]) empty_graph)
      "A" "B" = Some data /\
    Dict.get "time" data = Some 7 /\ Dict.get "cost" data = Some 8 /\
    Dict.get "distance" data = Some 9.
Proof.
  apply (add_routes_stores [("A", "B", 1, 1, 1)] [] empty_graph "B" "A" 7 8 9).
  intros r Hr. by apply elem_of_nil in Hr.
Defined.

(** X2. The loop of [build_transport_graph] leaves alone every route that
    the list does not mention: between two stops that no tuple joins, the
    finished graph has the route, and the data, of the graph it started
    from. *)
Theorem add_routes_keeps_other_routes rs G n m :
  (forall r, r ∈ rs -> ~ joins r n m) ->
  route_data (add_routes rs G) n m = route_data G n m.
Proof.
  revert G; induction rs as [|[[[[u v] t] c] d] rs IH]; intros G Hno; [done|].
  rewrite add_routes_cons, IH by (intros r Hr; apply Hno; by right).
  rewrite route_data_add_edge, bool_decide_eq_false_2; [done|].
  intros H. apply (Hno (u, v, t, c, d)); [left|]. cbn.
  destruct H as [[-> ->]|[-> ->]]; auto.
Qed.

Lemma add_routes_keeps_other_routes_witness :
  route_data (add_routes [("A", "C", 2, 2, 2); ("C", "B", 3, 3, 3)] two_islands)
    "A" "B"
  = route_data two_islands "A" "B".
Proof.
  apply (add_routes_keeps_other_routes
           [("A", "C", 2, 2, 2); ("C", "B", 3, 3, 3)] two_islands "A" "B").
  intros r [->|[->|[]%elem_of_nil]%elem_of_cons]%elem_of_cons;
    cbn; intros [[? ?]|[? ?]]; discriminate.
Defined.

(** X3. The loop of [build_transport_graph] keeps a graph well formed: keys
    stay distinct, every neighbour is a stop, and every route is stored in
    both directions with the same data. *)
Theorem add_routes_well_formed rs G :
  well_formed G = true -> well_formed (add_routes rs G) = true.
Proof.
  revert G; induction rs as [|[[[[u v] t] c] d] rs IH]; intros G HG; [done|].
  rewrite add_routes_cons. apply IH.
  apply well_formed_spec in HG as (Hk & Hc & Hu). apply well_formed_spec.
  split_and!;
    [by apply keys_unique_add_edge|by apply closed_add_edge
    |by apply undirected_add_edge].
Qed.

Lemma add_routes_well_formed_witness :
  well_formed (add_routes routes empty_graph) = true.
Proof. apply (add_routes_well_formed routes empty_graph). reflexivity. Defined.

(** ** [validate_graph]: failure, and what success guarantees *)

Lemma check_edges_has_weights u v data es :
  check_edges ((u, v, data) :: es)
  = if has_weights data then check_edges es
    else (false, "Missing weights on edge " +:+ u +:+ " - " +:+ v).
Proof.
  cbn [check_edges]. unfold has_weights.
  by destruct (Dict.mem "time" data), (Dict.mem "cost" data),
    (Dict.mem "distance" data).
Qed.


Lemma fully_attributed_attributed g :
  fully_attributed g = true -> attributed g = true.
Proof.
  unfold fully_attributed, attributed. rewrite !forallb_forall.
  intros H e He. specialize (H e He). rewrite forallb_forall in H |- *.
  intros r Hr. specialize (H r Hr). by apply andb_prop in H as [-> _].
Qed.


Lemma route_data_has_route g u v data :
  route_data g u v = Some data -> has_route g u v = true.
Proof. intros H. apply has_route_route_data. by rewrite H. Qed.

Lemma route_data_nodes g u v data :
  route_data g u v = Some data -> number_of_nodes g <> 0%nat.
Proof.
  unfold route_data, number_of_nodes. by destruct (adj g).
Qed.

(** X4. A graph that the loop of [build_transport_graph] builds from a
    list with at least one tuple passes [validate_graph], when the graph the
    loop started from was well formed with all attributes on its routes (the
    empty graph is). *)
Theorem add_routes_validates rs G :
  rs <> [] -> well_formed G = true -> fully_attributed G = true ->
  validate_graph (add_routes rs G) = (true, success_message).
Proof.
  intros Hne Hwf Hfa.
  pose proof (well_formed_add_routes rs G Hwf) as Hwf'.
  pose proof (fully_attributed_add_routes rs G Hfa) as Hfa'.
  destruct (exists_last Hne) as (rs1 & [[[[u v] t] c] d] & ->).
  assert (Hr : exists data,
    route_data (add_routes (rs1 ++ [(u, v, t, c, d)]) G) u v = Some data).
  { rewrite add_routes_app, add_routes_cons. cbn [add_routes fold_left].
    rewrite route_data_add_edge, bool_decide_eq_true_2 by tauto. eauto. }
  destruct Hr as [data Hr]. set (g := add_routes _ G) in *.
  unfold validate_graph.
  destruct (Nat.eqb_spec (number_of_nodes g) 0) as [H0|_].
  { by apply route_data_nodes in Hr. }
  destruct (Nat.eqb_spec (number_of_edges g) 0) as [H0|_].
  { apply (has_route_number_of_edges g u v) in H0; [done| |].
    - unfold well_formed in Hwf'. by apply andb_prop in Hwf' as [_ ?].
    - by eapply route_data_has_route. }
  apply check_edges_complete. intros a b dd.
  by apply fully_attributed_edges.
Qed.

Lemma add_routes_validates_witness :
  validate_graph (add_routes [("A", "B", 10, 5, 3)] empty_graph)
  = (true, success_message).
Proof.
  apply (add_routes_validates [("A", "B", 10, 5, 3)] empty_graph);
    [discriminate|reflexivity|reflexivity].
Defined.

(** X5. When a graph has stops and routes, [validate_graph] reports the
    first route, in the order of [graph.edges], whose data lacks [time],
    [cost] or [distance], whatever comes after it. *)
Theorem validate_graph_first_missing g es1 u v data es2 :
  number_of_nodes g <> 0%nat -> number_of_edges g <> 0%nat ->
  edges g = es1 ++ (u, v, data) :: es2 ->
  (forall a b dd, (a, b, dd) ∈ es1 -> has_weights dd = true) ->
  has_weights data = false ->
  validate_graph g
  = (false, "Missing weights on edge " +:+ u +:+ " - " +:+ v).
Proof.
  intros Hn He Hed Hes1 Hdata. unfold validate_graph.
  destruct (Nat.eqb_spec (number_of_nodes g) 0); [done|].
  destruct (Nat.eqb_spec (number_of_edges g) 0); [done|].
  rewrite Hed. clear Hed.
  induction es1 as [|[[a b] dd] es1 IH]; cbn [app].
  - by rewrite check_edges_has_weights, Hdata.
  - rewrite check_edges_has_weights, (Hes1 a b dd) by left.
    apply IH. intros a' b' dd' ?. apply (Hes1 a' b'). by right.
Qed.

Lemma validate_graph_first_missing_witness :
  validate_graph
    (add_edge (add_edge two_islands "A" "C" [("time", 5)]) "B" "D" [])
  = (false, "Missing weights on edge " +:+ "A" +:+ " - " +:+ "C").
Proof.
  apply (validate_graph_first_missing _
           [("A", "B", [("time", 4); ("cost", 2); ("distance", 1)])]
           "A" "C" [("time", 5)]
           [("B", "D", []);
            ("C", "D", [("time", 3); ("cost", 1); ("distance", 1)])]).
  - vm_compute; discriminate.
  - vm_compute; discriminate.
  - vm_compute; reflexivity.
  - intros a b dd [[= -> -> ->]|[]%elem_of_nil]%elem_of_cons. reflexivity.
  - reflexivity.
Defined.



(** ** The search: reachability for any coefficients *)

(** As long as the destination can be reached and is not visited, the loop
    does not run out of entries, whatever the weights are. *)
Lemma while_pq_reaches g alpha beta s d fuel pq (visited : gset Stop) w p :
  (s ∉ visited -> exists c q, (c, s, q) ∈ pq) ->
  (forall u v, u ∈ visited -> has_route g u v = true -> v ∉ visited ->
     exists c q, (c, v, q) ∈ pq) ->
  d ∉ visited -> reachable g s d ->
  while_pq fuel g d alpha beta pq visited = Some (inr (w, p)) ->
  exists c, w = Finite c.
Proof.
  intros Hseed Hfr Hd Hreach. revert pq visited Hseed Hfr Hd.
  induction fuel as [|fuel IH]; intros pq visited Hseed Hfr Hd; [done|].
  cbn [while_pq].
  destruct (heappop pq) as [[[[c node] path] rest]|] eqn:Hpop.
  2:{ apply heappop_None in Hpop as ->. intros _.
      destruct Hreach as (q & Hh & Hl & Hq).
      destruct (decide (s ∈ visited)) as [Hs|Hs].
      - destruct (path_leaves visited q s d) as (q1 & u & v & q2 & -> & Hu & Hv);
          [done..|].
        apply routes_connect_app in Hq.
        destruct (Hfr u v Hu Hq Hv) as (? & ? & []%elem_of_nil).
      - destruct (Hseed Hs) as (? & ? & []%elem_of_nil). }
  assert (Hkeep : forall e, e ∈ pq -> node_of e <> node -> e ∈ rest).
  { intros e He Hne. apply (heappop_elem _ _ _ e Hpop) in He as [->|He]; done. }
  destruct (decide (node ∈ visited)) as [Hv|Hv].
  - apply IH; [| |done].
    + intros Hs. destruct (Hseed Hs) as (c' & q & Hin). exists c', q.
      apply Hkeep; [done|]. cbn. by intros ->.
    + intros u v Hu Huv Hv'. destruct (Hfr u v Hu Huv Hv') as (c' & q & Hin).
      exists c', q. apply Hkeep; [done|]. cbn. by intros ->.
  - destruct (String.eqb_spec node d) as [->|Hne]; [intros [= <- <-]; eauto|].
    destruct (neighbors g node) as [|nbrs] eqn:Hnb; [done|].
    destruct (push_neighbors _ _ _ _ _ _ _ _ rest) as [|pq'] eqn:Hpush; [done|].
    apply push_neighbors_inr in Hpush as (new & -> & _ & _ & Hall).
    apply IH; [| |by apply not_elem_of_visit].
    + intros [Hs1 Hs2]%not_elem_of_visit.
      destruct (Hseed Hs2) as (c' & q & Hin). exists c', q.
      apply elem_of_app. right. apply Hkeep; [done|]. by cbn.
    + intros u v Hu Huv [Hv1 Hv2]%not_elem_of_visit.
      apply elem_of_visit in Hu as [->|Hu].
      * destruct (Hall v) as (w' & _ & Hin).
        { by apply (neighbors_inr _ _ _ _ Hnb). }
        { by apply not_elem_of_visit. }
        eexists _, _. apply elem_of_app. left. exact Hin.
      * destruct (Hfr u v Hu Huv Hv2) as (c' & q & Hin). exists c', q.
        apply elem_of_app. right. apply Hkeep; [done|]. by cbn.
Qed.

(** X7. On a closed graph whose routes carry [time] and [cost], from a stop
    of the graph, the search returns the unreachable result [(inf, [])]
    exactly when no sequence of routes leads to the destination, whatever
    [alpha] and [beta] are, negative values included. *)
Theorem infinity_iff_unreachable g s d alpha beta :
  closed g = true -> attributed g = true -> has_node g s = true ->
  multi_criteria_dijkstra g s d alpha beta = Some (inr (Infinity, []))
  <-> ~ reachable g s d.
Proof.
  intros Hcl Hat Hs%has_node_nodes. split.
  - intros Hr Hreach.
    assert (H1 : s ∉ (∅ : gset Stop) ->
                 exists c q, (c, s, q) ∈ [(0, s, @nil string)]).
    { intros _. exists 0, []. left. }
    assert (H2 : forall u v, u ∈ (∅ : gset Stop) -> has_route g u v = true ->
                 v ∉ (∅ : gset Stop) ->
                 exists c q, (c, v, q) ∈ [(0, s, @nil string)]).
    { intros u v Hu. by apply not_elem_of_empty in Hu. }
    destruct (while_pq_reaches g alpha beta s d _ _ _ _ _ H1 H2
                (not_elem_of_empty d) Hreach Hr) as [c [=]].
  - by apply search_unreachable.
Qed.

Lemma infinity_iff_unreachable_witness :
  multi_criteria_dijkstra two_islands "A" "D" (-3) (-1)
    = Some (inr (Infinity, []))
  <-> ~ reachable two_islands "A" "D".
Proof.
  apply (infinity_iff_unreachable two_islands "A" "D" (-3) (-1));
    vm_compute; reflexivity.
Defined.

(** ** The search: the least weight as a distance *)

Lemma route_weight_route_data g alpha beta u v :
  route_weight g alpha beta u v
  = match route_data g u v with
    | Some edge =>
        match attribute edge "time", attribute edge "cost" with
        | inr time, inr cost => Some (alpha * time + beta * cost)
        | _, _ => None
        end
    | None => None
    end.
Proof.
  unfold route_weight, getitem, route_data.
  destruct (Dict.get u (adj g)) as [nbrs|]; [|done].
  by destruct (Dict.get v nbrs).
Qed.











(** ** The search: the returned route and the routes to its stops *)

(** Once [m] is visited, with the path [pm], every path of the heap that
    goes through [m] starts with [pm], and so does the returned path. *)
Lemma while_pq_after_visit g alpha beta d m pm fuel pq (visited : gset Stop)
    w p :
  m ∈ visited ->
  (forall e : entry, e ∈ pq -> m ∈ e.2 -> pm `prefix_of` e.2) ->
  while_pq fuel g d alpha beta pq visited = Some (inr (w, p)) ->
  m ∈ p -> pm `prefix_of` p.
Proof.
  revert pq visited; induction fuel as [|fuel IH]; intros pq visited Hm Hpre;
    [done|]. cbn [while_pq].
  destruct (heappop pq) as [[[[c node] path] rest]|] eqn:Hpop;
    [|by intros [= <- <-] ?%elem_of_nil].
  assert (Hrest : forall e : entry, e ∈ rest -> m ∈ e.2 -> pm `prefix_of` e.2).
  { intros e He. apply Hpre. rewrite (heappop_elem _ _ _ _ Hpop). by right. }
  assert (Hcur : m ∈ path -> pm `prefix_of` path).
  { apply (Hpre (c, node, path)). rewrite (heappop_elem _ _ _ _ Hpop). by left. }
  destruct (decide (node ∈ visited)) as [Hv|Hv]; [by apply IH|].
  assert (Hext : m ∈ path ++ [node] -> pm `prefix_of` path ++ [node]).
  { intros [Hin | ->%list_elem_of_singleton]%elem_of_app; [|done].
    by apply prefix_app_r, Hcur. }
  destruct (String.eqb node d); [by intros [= <- <-]|].
  destruct (neighbors g node) as [|nbrs]; [done|].
  destruct (push_neighbors _ _ _ _ _ _ _ _ rest) as [|pq'] eqn:Hpush; [done|].
  apply push_neighbors_inr in Hpush as (new & -> & _ & Hnew & _).
  apply IH; [apply elem_of_visit; by right|].
  intros e [He|He]%elem_of_app; [|by apply Hrest].
  apply Hnew in He as (v & w' & -> & _). exact Hext.
Qed.

(** Up to the visit of [m], the search for [d] and the search for [m] are
    the same computation. *)
Lemma while_pq_prefix g alpha beta d m fuel pq (visited : gset Stop) w p :
  (forall e : entry, e ∈ pq -> forall x, x ∈ e.2 -> x ∈ visited) ->
  m ∉ visited ->
  while_pq fuel g d alpha beta pq visited = Some (inr (w, p)) ->
  m ∈ p ->
  exists c pm,
    while_pq fuel g m alpha beta pq visited = Some (inr (Finite c, pm)) /\
    pm `prefix_of` p.
Proof.
  revert pq visited; induction fuel as [|fuel IH]; intros pq visited Hsub Hm;
    [done|]. cbn [while_pq].
  destruct (heappop pq) as [[[[c node] path] rest]|] eqn:Hpop;
    [|by intros [= <- <-] ?%elem_of_nil].
  assert (Hrest : forall e : entry, e ∈ rest ->
            forall x, x ∈ e.2 -> x ∈ visited).
  { intros e He. apply Hsub. rewrite (heappop_elem _ _ _ _ Hpop). by right. }
  assert (Hcur : forall x, x ∈ path -> x ∈ visited).
  { apply (Hsub (c, node, path)). rewrite (heappop_elem _ _ _ _ Hpop). by left. }
  destruct (decide (node ∈ visited)) as [Hv|Hv]; [by apply IH|].
  destruct (String.eqb_spec node m) as [->|Hnm].
  - intros Hrun Hin. exists c, (path ++ [m]). split; [done|].
    destruct (String.eqb_spec m d) as [->|Hmd];
      [by injection Hrun as <- <-|].
    destruct (neighbors g m) as [|nbrs]; [done|].
    destruct (push_neighbors _ _ _ _ _ _ _ _ rest) as [|pq'] eqn:Hpush; [done|].
    apply push_neighbors_inr in Hpush as (new & -> & _ & Hnew & _).
    eapply while_pq_after_visit; [| |exact Hrun|exact Hin].
    + apply elem_of_visit. by left.
    + intros e [He|He]%elem_of_app.
      * by apply Hnew in He as (v & w' & -> & _).
      * intros Hme. destruct Hm. by apply (Hrest e).
  - destruct (String.eqb_spec node d) as [->|Hnd].
    { intros [= <- <-] [Hin | ->%list_elem_of_singleton]%elem_of_app; [|done].
      destruct Hm. by apply Hcur. }
    destruct (neighbors g node) as [|nbrs]; [done|].
    destruct (push_neighbors _ _ _ _ _ _ _ _ rest) as [|pq'] eqn:Hpush; [done|].
    apply push_neighbors_inr in Hpush as (new & -> & _ & Hnew & _).
    apply IH; [|by apply not_elem_of_visit].
    intros e [He|He]%elem_of_app x Hx; apply elem_of_visit.
    + apply Hnew in He as (v & w' & -> & _). cbn in Hx.
      apply elem_of_app in Hx as [Hx | ->%list_elem_of_singleton]; auto.
    + right. by apply (Hrest e).
Qed.

(** X10. The route the search returns is made of the routes it returns for
    the stops on the way: for every stop [m] of the path returned for [d],
    the search from the same source to [m] returns the part of that path
    that ends at [m].  This holds on every graph and for all [alpha] and
    [beta]. *)
Theorem search_prefix_consistent g s d m alpha beta w p :
  multi_criteria_dijkstra g s d alpha beta = Some (inr (w, p)) -> m ∈ p ->
  exists c pm rest,
    multi_criteria_dijkstra g s m alpha beta = Some (inr (Finite c, pm)) /\
    p = pm ++ rest /\ last pm = Some m.
Proof.
  intros Hr Hm.
  assert (Hsub : forall e : entry, e ∈ [(0, s, @nil string)] ->
            forall x, x ∈ e.2 -> x ∈ (∅ : gset Stop)).
  { by intros e ->%list_elem_of_singleton x ?%elem_of_nil. }
  destruct (while_pq_prefix g alpha beta d m _ _ _ _ _ Hsub
              (not_elem_of_empty m) Hr Hm) as (c & pm & Hrm & rest & ->).
  exists c, pm, rest. split_and!; [done..|].
  by destruct (search_sound _ _ _ _ _ _ _ Hrm)
    as [[[=] _]|(c' & _ & (_ & ? & _) & _)].
Qed.

Lemma search_prefix_consistent_witness :
  exists c pm rest,
    multi_criteria_dijkstra build_transport_graph "A" "E" 1 0
      = Some (inr (Finite c, pm)) /\
    ["A"; "C"; "E"; "F"] = pm ++ rest /\ last pm = Some "E".
Proof.
  apply (search_prefix_consistent build_transport_graph "A" "F" "E" 1 0
           (Finite 33)).
  - vm_compute; reflexivity.
  - do 2 right. left.
Defined.

(** ** The search: coefficients up to a common factor *)








(** ** The search: independence of the order of the dictionaries *)

Lemma push_neighbors_pushed g alpha beta visited c node path nbrs pq :
  (forall v, v ∈ nbrs -> v ∉ visited ->
     is_Some (route_weight g alpha beta node v)) ->
  push_neighbors g alpha beta visited c node path nbrs pq
  = inr (reverse (omap (pushed g alpha beta visited c node path) nbrs) ++ pq).
Proof.
  revert pq; induction nbrs as [|n nbrs IH]; intros pq Hw; [done|].
  assert (Hrest : forall v, v ∈ nbrs -> v ∉ visited ->
            is_Some (route_weight g alpha beta node v)).
  { intros v Hv. apply Hw. by right. }
  cbn [push_neighbors omap list_omap]. unfold pushed at 1.
  destruct (decide (n ∈ visited)) as [Hn|Hn]; [by apply IH|].
  destruct (Hw n) as [w Hwn]; [left|done|]. rewrite Hwn.
  unfold route_weight in Hwn.
  destruct (getitem g node n) as [|edge]; [done|].
  destruct (attribute edge "time") as [|time]; [done|].
  destruct (attribute edge "cost") as [|cost]; [done|].
  injection Hwn as <-. rewrite IH by done. unfold heappush.
  by rewrite reverse_cons, <- app_assoc.
Qed.

Lemma route_weight_same g1 g2 alpha beta u v :
  same_routes g1 g2 ->
  route_weight g1 alpha beta u v = route_weight g2 alpha beta u v.
Proof. intros [_ H]. by rewrite !route_weight_route_data, H. Qed.

(** Graphs with the same routes and distinct keys list the same neighbours,
    in some order. *)
Lemma neighbors_same g1 g2 u nbrs1 :
  keys_unique g1 = true -> keys_unique g2 = true -> same_routes g1 g2 ->
  neighbors g1 u = inr nbrs1 ->
  exists nbrs2, neighbors g2 u = inr nbrs2 /\ nbrs1 ≡ₚ nbrs2.
Proof.
  intros [_ Hk1]%keys_unique_spec [_ Hk2]%keys_unique_spec [Hn Hr].
  unfold neighbors. specialize (Hn u). unfold has_node, Dict.mem in Hn.
  specialize (Hr u). unfold route_data in Hr.
  destruct (Dict.get u (adj g1)) as [ns1|] eqn:H1; [|done].
  destruct (Dict.get u (adj g2)) as [ns2|] eqn:H2; [|done].
  intros [= <-]. exists (Dict.keys ns2). split; [done|].
  apply dict_get_elem in H1, H2.
  apply NoDup_Permutation; [by eapply Hk1|by eapply Hk2|].
  intros v. by rewrite !dict_get_keys, Hr.
Qed.

(** The loop pops the same entries from two heaps with the same items, and
    pushes the same entries for the same neighbours. *)
Lemma while_pq_same g1 g2 alpha beta d fuel pq1 pq2 visited r :
  keys_unique g1 = true -> keys_unique g2 = true -> same_routes g1 g2 ->
  pq1 ≡ₚ pq2 ->
  while_pq fuel g1 d alpha beta pq1 visited = Some (inr r) ->
  while_pq fuel g2 d alpha beta pq2 visited = Some (inr r).
Proof.
  intros Hk1 Hk2 Hsame. revert pq1 pq2 visited.
  induction fuel as [|fuel IH]; intros pq1 pq2 visited Hperm; [done|].
  cbn [while_pq].
  destruct (heappop pq1) as [[m1 rest1]|] eqn:Hpop1.
  2:{ apply heappop_None in Hpop1 as ->. apply Permutation_length in Hperm.
      by destruct pq2. }
  destruct (heappop pq2) as [[m2 rest2]|] eqn:Hpop2.
  2:{ apply heappop_None in Hpop2 as ->. apply Permutation_length in Hperm.
      by destruct pq1. }
  assert (m2 = m1) as ->.
  { destruct (heappop_smallest _ _ _ Hpop1) as (_ & _ & Huniq).
    destruct (heappop_smallest _ _ _ Hpop2) as (Hin2 & Hmin2 & _).
    apply Huniq; [by rewrite Hperm|]. intros x Hx. apply Hmin2.
    by rewrite <- Hperm. }
  assert (Hrest : rest1 ≡ₚ rest2).
  { apply heappop_perm in Hpop1, Hpop2.
    apply (Permutation_cons_inv (a := m1)). by rewrite Hpop1, Hpop2. }
  destruct m1 as [[c node] path].
  destruct (decide (node ∈ visited)); [by apply IH|].
  destruct (String.eqb node d); [done|].
  destruct (neighbors g1 node) as [|nbrs1] eqn:Hn1; [done|].
  destruct (neighbors_same g1 g2 node nbrs1 Hk1 Hk2 Hsame Hn1)
    as (nbrs2 & -> & Hnb).
  destruct (push_neighbors g1 _ _ _ _ _ _ nbrs1 rest1) as [|pq1'] eqn:Hp1;
    [done|].
  pose proof (push_neighbors_inr _ _ _ _ _ _ _ _ _ _ Hp1)
    as (new & _ & _ & _ & Hall).
  assert (Hw1 : forall v, v ∈ nbrs1 -> v ∉ {[node]} ∪ visited ->
            is_Some (route_weight g1 alpha beta node v)).
  { intros v Hv Hvis. destruct (Hall v Hv Hvis) as (w & Hw & _). by exists w. }
  rewrite push_neighbors_pushed in Hp1 by done. injection Hp1 as <-.
  rewrite push_neighbors_pushed.
  2:{ intros v Hv Hvis. rewrite <- (route_weight_same g1 g2) by done.
      apply Hw1; [by rewrite Hnb|done]. }
  apply IH. apply Permutation_app; [|done].
  rewrite !reverse_Permutation.
  rewrite <- Hnb.
  assert (omap (pushed g2 alpha beta ({[node]} ∪ visited) c node
                  (path ++ [node])) nbrs1
          = omap (pushed g1 alpha beta ({[node]} ∪ visited) c node
                    (path ++ [node])) nbrs1) as ->; [|done].
  apply list_omap_ext, Forall2_same_length_lookup_2; [done|].
  intros i x y Hx Hy. assert (x = y) as -> by congruence.
  unfold pushed. by rewrite (route_weight_same g1 g2).
Qed.

(** The search returns on one graph what it returns on another graph with
    the same routes. *)
Lemma search_same_routes g1 g2 s d alpha beta r :
  keys_unique g1 = true -> keys_unique g2 = true -> same_routes g1 g2 ->
  multi_criteria_dijkstra g1 s d alpha beta = Some (inr r) ->
  multi_criteria_dijkstra g2 s d alpha beta = Some (inr r).
Proof.
  intros Hk1 Hk2 Hsame Hr1.
  destruct (search_terminates g2 s d alpha beta) as [r2 Hr2].
  unfold multi_criteria_dijkstra in *.
  set (f1 := S (iterations_left g1 _ _)) in *.
  set (f2 := S (iterations_left g2 _ _)) in *.
  apply (while_pq_fuel _ _ _ _ f1 (f1 + f2)%nat) in Hr1; [|lia].
  pose proof (while_pq_fuel _ _ _ _ f2 (f1 + f2)%nat _ _ _ Hr2 ltac:(lia)) as Hr2'.
  apply (while_pq_same g1 g2) with (pq2 := [(0, s, [])]) in Hr1; [|done..].
  congruence.
Qed.

Lemma same_routes_sym g1 g2 : same_routes g1 g2 -> same_routes g2 g1.
Proof. intros [H1 H2]. split; intros; by rewrite ?H1, ?H2. Qed.

Lemma same_routes_trans g1 g2 g3 :
  same_routes g1 g2 -> same_routes g2 g3 -> same_routes g1 g3.
Proof.
  intros [H1 H2] [H3 H4]. split; intros; by rewrite ?H1, ?H2, ?H3, ?H4.
Qed.

Lemma same_routes_add_edge g1 g2 u v attr :
  same_routes g1 g2 ->
  same_routes (add_edge g1 u v attr) (add_edge g2 u v attr).
Proof.
  intros [H1 H2]. split.
  - intros n. by rewrite !has_node_add_edge, H1.
  - intros n m. by rewrite !route_data_add_edge, !H2.
Qed.

Lemma same_routes_add_routes rs g1 g2 :
  same_routes g1 g2 -> same_routes (add_routes rs g1) (add_routes rs g2).
Proof.
  revert g1 g2; induction rs as [|[[[[u v] t] c] d] rs IH]; intros g1 g2 H;
    [done|].
  rewrite !add_routes_cons. by apply IH, same_routes_add_edge.
Qed.

(** A tuple that joins two stops has their alphabetical pair as its key. *)
Lemma joins_pair_key r n m :
  joins r n m -> pair_key r = if String.leb n m then (n, m) else (m, n).
Proof.
  destruct r as [[[[a b] t] c] d]. cbn.
  intros [[-> ->]|[-> ->]]; [done|].
  destruct (String.leb m n) eqn:H1, (String.leb n m) eqn:H2; try done.
  - by rewrite (String.leb_antisym _ _ H1 H2).
  - destruct (String.leb_total m n); congruence.
Qed.

(** Two tuples that join different pairs of stops can be added in either
    order. *)
Lemma same_routes_swap g1 g2 x y :
  pair_key x <> pair_key y -> same_routes g1 g2 ->
  same_routes (add_routes [x; y] g1) (add_routes [y; x] g2).
Proof.
  intros Hne [H1 H2].
  destruct x as [[[[xu xv] xt] xc] xd], y as [[[[yu yv] yt] yc] yd].
  assert (Hboth : forall n m,
            ~ (joins (xu, xv, xt, xc, xd) n m /\ joins (yu, yv, yt, yc, yd) n m)).
  { intros n m [Hx%joins_pair_key Hy%joins_pair_key]. congruence. }
  rewrite !add_routes_cons. cbn [add_routes fold_left]. split.
  - intros n. rewrite !has_node_add_edge, H1.
    by destruct (has_node g2 n), (String.eqb n xu), (String.eqb n xv),
      (String.eqb n yu), (String.eqb n yv).
  - intros n m. rewrite !route_data_add_edge, !H2.
    pose proof (Hboth n m) as Hnm. pose proof (Hboth yu yv) as Hy.
    pose proof (Hboth xu xv) as Hx. cbn in Hnm, Hy, Hx.
    repeat case_bool_decide; try done;
      try (exfalso; intuition congruence); exfalso; apply Hnm; intuition congruence.
Qed.

(** The order of the tuples does not matter to the graph that is built,
    when no two of them join the same stops. *)
Lemma same_routes_permutation rs rs' g1 g2 :
  rs ≡ₚ rs' -> distinct_pairs rs -> same_routes g1 g2 ->
  same_routes (add_routes rs g1) (add_routes rs' g2).
Proof.
  intros Hperm. revert g1 g2.
  induction Hperm as [|x l l' Hp IH|x y l|l l' l'' Hp1 IH1 Hp2 IH2];
    intros g1 g2 Hd Hsame.
  - done.
  - unfold distinct_pairs in Hd. cbn in Hd. apply NoDup_cons in Hd as [_ Hd].
    destruct x as [[[[u v] t] c] d]. rewrite !add_routes_cons.
    by apply IH, same_routes_add_edge.
  - change (y :: x :: l) with ([y; x] ++ l).
    change (x :: y :: l) with ([x; y] ++ l).
    rewrite !add_routes_app. apply same_routes_add_routes.
    apply same_routes_swap; [|done].
    unfold distinct_pairs in Hd. cbn in Hd.
    apply NoDup_cons in Hd as [Hd _]. intros Heq. apply Hd. rewrite Heq. left.
  - apply (same_routes_trans _ (add_routes l' g2)).
    + by apply IH1.
    + apply IH2; [|by split].
      unfold distinct_pairs in *. by rewrite <- Hp1.
Qed.

(** X12. What the search returns does not depend on the order in which the
    graph stores its stops and its neighbours: on two graphs with the same
    stops and the same route data, each without a repeated key, a result
    returned on one is returned on the other, path included, also when
    several paths have the smallest weight. *)
Theorem search_ignores_storage_order g1 g2 s d alpha beta r :
  keys_unique g1 = true -> keys_unique g2 = true -> same_routes g1 g2 ->
  multi_criteria_dijkstra g1 s d alpha beta = Some (inr r) <->
  multi_criteria_dijkstra g2 s d alpha beta = Some (inr r).
Proof.
  intros Hk1 Hk2 Hsame. split.
  - by apply search_same_routes.
  - by apply search_same_routes, same_routes_sym.
Qed.

Lemma search_ignores_storage_order_witness :
  multi_criteria_dijkstra build_transport_graph "A" "F" 1 1
    = Some (inr (Finite 45, ["A"; "C"; "E"; "F"])) <->
  multi_criteria_dijkstra (add_routes (reverse routes) empty_graph) "A" "F" 1 1
    = Some (inr (Finite 45, ["A"; "C"; "E"; "F"])).
Proof.
  apply (search_ignores_storage_order build_transport_graph
           (add_routes (reverse routes) empty_graph) "A" "F" 1 1);
    [vm_compute; reflexivity|vm_compute; reflexivity|].
  rewrite build_transport_graph_add_routes.
  apply same_routes_permutation; [| |done].
  - symmetry. apply reverse_Permutation.
  - apply (bool_decide_unpack (NoDup (map pair_key routes))).
    vm_compute. reflexivity.
Defined.

(** X13. The order of the tuples in the list of routes does not matter to
    the search: when no two tuples join the same two stops, the graphs built
    from a list and from any rearrangement of it give the same outcome for
    every source, destination and coefficients, the error for an unknown
    source included. *)
Theorem route_order_irrelevant rs rs' s d alpha beta :
  rs ≡ₚ rs' -> distinct_pairs rs ->
  multi_criteria_dijkstra (add_routes rs empty_graph) s d alpha beta
  = multi_criteria_dijkstra (add_routes rs' empty_graph) s d alpha beta.
Proof.
  intros Hperm Hd.
  pose proof (same_routes_permutation rs rs' empty_graph empty_graph Hperm Hd
                ltac:(done)) as Hsame.
  pose proof (well_formed_add_routes rs _ well_formed_empty_graph)
    as (Hk1 & Hc1 & _)%well_formed_spec.
  pose proof (well_formed_add_routes rs' _ well_formed_empty_graph)
    as (Hk2 & _ & _)%well_formed_spec.
  pose proof (fully_attributed_attributed _
                (fully_attributed_add_routes rs empty_graph eq_refl)) as Hat.
  destruct (has_node (add_routes rs empty_graph) s) eqn:Hs.
  - destruct (search_returns _ s d alpha beta Hc1 Hat)
      as (w & p & Hr); [by apply has_node_nodes|].
    rewrite Hr. symmetry.
    by apply (search_same_routes (add_routes rs empty_graph)).
  - pose proof Hs as Hs'. rewrite (proj1 Hsame) in Hs'.
    destruct (decide (s = d)) as [<-|Hne].
    + unfold multi_criteria_dijkstra. cbn [while_pq heappop extract_min].
      destruct (decide (s ∈ (∅ : gset string))) as [[]%not_elem_of_empty|_].
      by rewrite String.eqb_refl.
    + by rewrite !search_unknown_source.
Qed.

Lemma route_order_irrelevant_witness :
  multi_criteria_dijkstra (add_routes routes empty_graph) "A" "F" 2 3
  = multi_criteria_dijkstra (add_routes (reverse routes) empty_graph)
      "A" "F" 2 3.
Proof.
  apply (route_order_irrelevant routes (reverse routes) "A" "F" 2 3).
  - symmetry. apply reverse_Permutation.
  - apply (bool_decide_unpack (NoDup (map pair_key routes))).
    vm_compute. reflexivity.
Defined.

(** ** The Module 2 tab: what the button displays *)

Lemma route_attributes g u v data :
  attributed g = true -> route_data g u v = Some data ->
  exists t c, Dict.get "time" data = Some t /\ Dict.get "cost" data = Some c.
Proof.
  intros Hat (nbrs & Hn%list_elem_of_In & Hm%list_elem_of_In)%route_data_elem.
  unfold attributed in Hat. rewrite forallb_forall in Hat.
  specialize (Hat _ Hn). cbn in Hat. rewrite forallb_forall in Hat.
  specialize (Hat _ Hm). cbn in Hat. unfold Dict.mem in Hat.
  destruct (Dict.get "time" data) as [t|]; [|done].
  destruct (Dict.get "cost" data) as [c|]; [|done]. by exists t, c.
Qed.

Lemma path_sum_cons g key u v r :
  path_sum g key (u :: v :: r) =
  match route_data g u v, path_sum g key (v :: r) with
  | Some data, Some t =>
      match Dict.get key data with
      | Some x => Some (x + t)
      | None => None
      end
  | _, _ => None
  end.
Proof. reflexivity. Qed.

(** With the coefficients [(1, 0)] the weight of a path is its total time,
    with [(0, 1)] its total cost. *)
Lemma path_weight_time g p :
  attributed g = true -> path_weight g 1 0 p = path_sum g "time" p.
Proof.
  intros Hat. induction p as [|u [|v r] IH]; [done..|].
  rewrite path_weight_cons, path_sum_cons, IH.
  rewrite route_weight_route_data.
  destruct (route_data g u v) as [data|] eqn:Hd; [|done].
  destruct (route_attributes g u v data Hat Hd) as (t & c & Ht & Hc).
  unfold attribute. rewrite Ht, Hc.
  destruct (path_sum g "time" (v :: r)); [|done]. f_equal. lia.
Qed.

Lemma path_weight_cost g p :
  attributed g = true -> path_weight g 0 1 p = path_sum g "cost" p.
Proof.
  intros Hat. induction p as [|u [|v r] IH]; [done..|].
  rewrite path_weight_cons, path_sum_cons, IH.
  rewrite route_weight_route_data.
  destruct (route_data g u v) as [data|] eqn:Hd; [|done].
  destruct (route_attributes g u v data Hat Hd) as (t & c & Ht & Hc).
  unfold attribute. rewrite Ht, Hc.
  destruct (path_sum g "cost" (v :: r)); [|done]. f_equal. lia.
Qed.

(** X14. The button of the Module 2 tab displays a best route by the
    criterion its radio option names: on a closed graph with non-negative
    times and costs, for a source of the graph and a destination that can be
    reached, [Fastest Route (Time)] displays a path from the source to the
    destination with its total time, and no path between them takes less
    time; [Cheapest Route (Cost)] does the same with the total cost. *)
Theorem handler_shows_best_route g s d preference key :
  closed g = true -> nonnegative g = true -> has_node g s = true ->
  reachable g s d -> criterion preference = Some key ->
  exists w p,
    compute_optimized_route g s d preference
    = Some (inr [ "## ✅ Optimized Route"; join " → " p;
                  "Optimized Weight: " +:+ str w ]) /\
    head p = Some s /\ last p = Some d /\ path_sum g key p = Some w /\
    forall q wq,
      head q = Some s -> last q = Some d -> path_sum g key q = Some wq ->
      w <= wq.
Proof.
  intros Hcl Hnn Hs%has_node_nodes Hre Hkey.
  pose proof (nonnegative_attributed g Hnn) as Hat.
  unfold criterion in Hkey.
  destruct (String.eqb_spec preference "Fastest Route (Time)") as [->|_].
  - injection Hkey as <-.
    destruct (search_optimal g s d 1 0 Hcl Hnn ltac:(lia) ltac:(lia) Hs Hre)
      as (w & p & Hr & (Hh & Hl & Hw) & Hmin).
    exists w, p. unfold compute_optimized_route.
    change (coefficients "Fastest Route (Time)") with (1, 0).
    cbv beta iota. rewrite Hr.
    rewrite path_weight_time in Hw by done. split_and!; [done..|].
    intros q wq Hqh Hql Hqw. apply (Hmin q). split_and!; [done..|].
    by rewrite path_weight_time.
  - destruct (String.eqb_spec preference "Cheapest Route (Cost)") as [->|_];
      [|done].
    injection Hkey as <-.
    destruct (search_optimal g s d 0 1 Hcl Hnn ltac:(lia) ltac:(lia) Hs Hre)
      as (w & p & Hr & (Hh & Hl & Hw) & Hmin).
    exists w, p. unfold compute_optimized_route.
    change (coefficients "Cheapest Route (Cost)") with (0, 1).
    cbv beta iota. rewrite Hr.
    rewrite path_weight_cost in Hw by done. split_and!; [done..|].
    intros q wq Hqh Hql Hqw. apply (Hmin q). split_and!; [done..|].
    by rewrite path_weight_cost.
Qed.

Lemma handler_shows_best_route_witness :
  exists w p,
    compute_optimized_route build_transport_graph "A" "F"
      "Cheapest Route (Cost)"
    = Some (inr [ "## ✅ Optimized Route"; join " → " p;
                  "Optimized Weight: " +:+ str w ]) /\
    head p = Some "A" /\ last p = Some "F" /\
    path_sum build_transport_graph "cost" p = Some w /\
    forall q wq,
      head q = Some "A" -> last q = Some "F" ->
      path_sum build_transport_graph "cost" q = Some wq -> w <= wq.
Proof.
  apply (handler_shows_best_route build_transport_graph "A" "F"
           "Cheapest Route (Cost)" "cost");
    [vm_compute; reflexivity|vm_compute; reflexivity|vm_compute; reflexivity
    | |reflexivity].
  exists ["A"; "B"; "D"; "F"]. split_and!; vm_compute; reflexivity.
Defined.

(** X15. When the destination cannot be reached from the source, the button
    of the Module 2 tab reports no failure: on a closed graph whose routes
    carry time and cost, for a source of the graph, it displays the heading,
    an empty route and the weight [inf], whatever the preference. *)
Theorem handler_shows_no_route g s d preference :
  closed g = true -> attributed g = true -> has_node g s = true ->
  ~ reachable g s d ->
  compute_optimized_route g s d preference
  = Some (inr [ "## ✅ Optimized Route"; ""; "Optimized Weight: inf" ]).
Proof.
  intros Hcl Hat Hs%has_node_nodes Hno. unfold compute_optimized_route.
  destruct (coefficients preference) as [alpha beta].
  by rewrite (search_unreachable g s d alpha beta Hcl Hat Hs Hno).
Qed.

Lemma handler_shows_no_route_witness :
  compute_optimized_route two_islands "A" "C" "Fastest Route (Time)"
  = Some (inr [ "## ✅ Optimized Route"; ""; "Optimized Weight: inf" ]).
Proof.
  apply (handler_shows_no_route two_islands "A" "C" "Fastest Route (Time)");
    [vm_compute; reflexivity..|exact two_islands_no_path].
Defined.

(** ** The Module 1 tab: the listing of the routes *)

Lemma edge_line_has_weights u v data :
  (exists line, edge_line u v data = inr line) <-> has_weights data = true.
Proof.
  unfold edge_line, attribute, has_weights, Dict.mem.
  destruct (Dict.get "time" data), (Dict.get "cost" data),
    (Dict.get "distance" data); cbn; split; try done; try by intros [? [=]].
  all: by eauto.
Qed.

(** The listing writes one line for each route up to the first one that
    lacks an attribute, where it raises [KeyError]. *)
Lemma write_edges_check_edges es :
  snd (write_edges es) = None <-> check_edges es = (true, success_message).
Proof.
  induction es as [|[[u v] data] es IH]; [done|].
  rewrite check_edges_has_weights. cbn [write_edges].
  destruct (has_weights data) eqn:Hw.
  - apply (edge_line_has_weights u v) in Hw as [line ->].
    by destruct (write_edges es).
  - destruct (edge_line u v data) as [e|line] eqn:He; [done|].
    assert (has_weights data = true)
      by (apply (edge_line_has_weights u v); eauto).
    congruence.
Qed.

(** X16. The listing of the routes in the Module 1 tab and [validate_graph]
    agree: on a graph with a stop and a route, the listing runs to its end
    without an exception exactly when [validate_graph] accepts the graph.  So
    when a route lacks [time], [cost] or [distance] the listing, which runs
    first, raises [KeyError] and the message about missing weights is never
    displayed. *)
Theorem listing_agrees_with_validation g :
  number_of_nodes g <> 0%nat -> number_of_edges g <> 0%nat ->
  snd (write_edges (edges g)) = None <->
  validate_graph g = (true, success_message).
Proof.
  intros Hn He. unfold validate_graph.
  destruct (Nat.eqb_spec (number_of_nodes g) 0) as [|_]; [done|].
  destruct (Nat.eqb_spec (number_of_edges g) 0) as [|_]; [done|].
  apply write_edges_check_edges.
Qed.

Lemma listing_agrees_with_validation_witness :
  snd (write_edges (edges bare_island)) = None <->
  validate_graph bare_island = (true, success_message).
Proof.
  apply (listing_agrees_with_validation bare_island); vm_compute; lia.
Defined.

(** ** The builder: how many routes, and which stops *)

Lemma dict_length_set {V} (k : string) (v : V) (d : Dict.t V) :
  length (Dict.set k v d) = (length d + if Dict.mem k d then 0 else 1)%nat.
Proof.
  unfold Dict.mem. induction d as [|[k0 v0] d IH]; cbn; [done|].
  destruct (String.eqb_spec k k0) as [->|Hne]; cbn; [lia|].
  rewrite IH. by destruct (Dict.get k d).
Qed.

Lemma dict_mem_set {V} (k k' : string) (v : V) (d : Dict.t V) :
  Dict.mem k' (Dict.set k v d) = String.eqb k' k || Dict.mem k' d.
Proof.
  unfold Dict.mem. rewrite dict_get_set. by destruct (String.eqb k' k).
Qed.

Lemma degree_sum_cons k nbrs a :
  degree_sum ((k, nbrs) :: a) = (degree k nbrs + degree_sum a)%nat.
Proof. reflexivity. Qed.

Lemma degree_sum_set k nbrs a :
  (degree_sum (Dict.set k nbrs a)
   + match Dict.get k a with Some old => degree k old | None => 0 end
   = degree_sum a + degree k nbrs)%nat.
Proof.
  induction a as [|[k0 v0] a IH].
  { cbn [Dict.set Dict.get]. rewrite degree_sum_cons. unfold degree_sum.
    cbn [map list_sum]. lia. }
  cbn [Dict.set Dict.get].
  destruct (String.eqb_spec k k0) as [->|Hne]; rewrite !degree_sum_cons; lia.
Qed.

Lemma degree_sum_ensure_node n a : degree_sum (ensure_node n a) = degree_sum a.
Proof.
  unfold ensure_node, Dict.mem. pose proof (degree_sum_set n [] a) as H.
  destruct (Dict.get n a); [done|]. 
  change (degree n []) with 0%nat in H. rewrite !Nat.add_0_r in H. exact H.
Qed.

Lemma number_of_edges_degree_sum g :
  number_of_edges g = (degree_sum (adj g) / 2)%nat.
Proof. reflexivity. Qed.

Lemma get_ensure_nodes u v a :
  Dict.get u (ensure_node v (ensure_node u a)) = Some (adj_of a u) /\
  Dict.get v (ensure_node v (ensure_node u a)) = Some (adj_of a v).
Proof.
  rewrite !dict_get_ensure_node, !String.eqb_refl. unfold adj_of.
  split; [by destruct (Dict.get u a), (String.eqb u v)|].
  by destruct (Dict.get v a), (String.eqb v u).
Qed.

Lemma mem_adj_of_has_route g u v :
  Dict.mem v (adj_of (adj g) u) = has_route g u v.
Proof.
  unfold Dict.mem. rewrite <- route_data_adj_of.
  destruct (route_data g u v) as [dd|] eqn:H.
  - symmetry. by eapply route_data_has_route.
  - destruct (has_route g u v) eqn:Hr; [|done].
    apply has_route_route_data in Hr as [? ?]. congruence.
Qed.

(** A new route adds two to the sum of the degrees, also when it is a
    self-loop; new data for an existing route adds nothing. *)
Lemma degree_sum_add_edge g u v attr :
  undirected g ->
  degree_sum (adj (add_edge g u v attr))
  = (degree_sum (adj g) + if has_route g u v then 0 else 2)%nat.
Proof.
  intros Hun. unfold add_edge. cbn [adj].
  set (a2 := ensure_node v (ensure_node u (adj g))).
  assert (Hs2 : degree_sum a2 = degree_sum (adj g))
    by (unfold a2; by rewrite !degree_sum_ensure_node).
  assert (Hu2 : adj_of a2 u = adj_of (adj g) u)
    by (unfold a2; by rewrite !adj_of_ensure_node).
  destruct (get_ensure_nodes u v (adj g)) as [Hgu Hgv]. fold a2 in Hgu, Hgv.
  rewrite Hu2. set (dd := Dict.update attr _). clearbody dd.
  change EdgeData in dd.
  set (nu := adj_of (adj g) u) in *. set (nv := adj_of (adj g) v) in *.
  set (a3 := Dict.set u (Dict.set v dd nu) a2).
  pose proof (degree_sum_set u (Dict.set v dd nu) a2) as H3.
  rewrite Hgu in H3. fold a3 in H3.
  pose proof (degree_sum_set v (Dict.set u dd (adj_of a3 v)) a3) as H4.
  assert (Hv3 : Dict.get v a3
                = Some (if String.eqb v u then Dict.set v dd nu else nv)).
  { unfold a3. rewrite dict_get_set. by destruct (String.eqb v u). }
  assert (Ha3 : adj_of a3 v
                = if String.eqb v u then Dict.set v dd nu else nv)
    by (unfold adj_of; by rewrite Hv3).
  change (degree_sum (Dict.set v (Dict.set u dd (adj_of a3 v)) a3)
          = (degree_sum (adj g) + if has_route g u v then 0 else 2)%nat).
  change (degree_sum a3 + degree u nu
          = degree_sum a2 + degree u (Dict.set v dd nu))%nat in H3.
  rewrite Hv3, Ha3 in H4. rewrite Ha3.
  pose proof (mem_adj_of_has_route g u v) as Huv.
  pose proof (mem_adj_of_has_route g v u) as Hvu.
  assert (Hsym : has_route g v u = has_route g u v).
  { destruct (has_route g u v) eqn:H.
    - apply has_route_route_data. rewrite Hun.
      by apply has_route_route_data.
    - destruct (has_route g v u) eqn:H'; [|done].
      apply has_route_route_data in H'. rewrite Hun in H'.
      apply has_route_route_data in H'. congruence. }
  fold nu in Huv. fold nv in Hvu. rewrite Hsym in Hvu.
  unfold degree in *. rewrite !dict_length_set, !dict_mem_set in *.
  destruct (String.eqb_spec v u) as [->|Hne].
  - rewrite ?String.eqb_refl in *.
    rewrite ?dict_length_set, ?dict_mem_set, ?String.eqb_refl in *.
    cbn [orb] in *. destruct (has_route g u u), (Dict.mem u nu); try done; lia.
  - rewrite ?String.eqb_refl in *.
    assert (String.eqb u v = false) as Huv' by (by apply String.eqb_neq).
    rewrite ?Huv' in *.
    rewrite ?dict_length_set, ?dict_mem_set, ?String.eqb_refl, ?Huv' in *.
    cbn [orb] in *.
    destruct (has_route g u v), (Dict.mem v nu), (Dict.mem u nv),
      (Dict.mem u nu), (Dict.mem v nv); try done; lia.
Qed.

Lemma number_of_edges_add_edge g u v attr :
  undirected g ->
  number_of_edges (add_edge g u v attr)
  = (number_of_edges g + if has_route g u v then 0 else 1)%nat.
Proof.
  intros Hun. rewrite !number_of_edges_degree_sum, degree_sum_add_edge by done.
  destruct (has_route g u v); [by rewrite !Nat.add_0_r|].
  change 2%nat with (1 * 2)%nat at 1. by rewrite Nat.div_add.
Qed.

(** X17. [number_of_edges] counts the tuples of the list: when no two tuples
    join the same two stops and none joins two stops that the starting graph
    already joins, the loop of [build_transport_graph] raises
    [number_of_edges] by the length of the list (a tuple from a stop to itself
    counts once).  From the empty graph, the number of routes displayed by
    the Module 1 tab is the number of tuples. *)
Theorem add_routes_number_of_edges rs G :
  well_formed G = true -> distinct_pairs rs ->
  (forall u v t c d, (u, v, t, c, d) ∈ rs -> has_route G u v = false) ->
  number_of_edges (add_routes rs G) = (number_of_edges G + length rs)%nat.
Proof.
  revert G. induction rs as [|[[[[u v] t] c] d] rs IH]; intros G Hwf Hd Hnew.
  { cbn. lia. }
  rewrite add_routes_cons.
  unfold distinct_pairs in Hd. cbn [map] in Hd.
  apply NoDup_cons in Hd as [Hhd Hd].
  pose proof Hwf as (_ & _ & Hun)%well_formed_spec.
  rewrite IH; [|by apply well_formed_add_edge_lemma|done|].
  - rewrite number_of_edges_add_edge by done.
    rewrite (Hnew u v t c d) by left. cbn [length]. lia.
  - intros u' v' t' c' d' Hin.
    destruct (has_route (add_edge G u v _) u' v') eqn:Hr; [|done].
    apply has_route_route_data in Hr. rewrite route_data_add_edge in Hr.
    case_bool_decide as Hj.
    + exfalso. apply Hhd.
      assert (Hk : pair_key (u', v', t', c', d') = pair_key (u, v, t, c, d)).
      { rewrite (joins_pair_key (u', v', t', c', d') u v) by exact Hj.
        symmetry. apply joins_pair_key. by left. }
      rewrite <- Hk. apply list_elem_of_fmap. by eexists; split; [|exact Hin].
    + apply has_route_route_data in Hr.
      rewrite (Hnew u' v' t' c' d') in Hr by (by right). done.
Qed.

Lemma add_routes_number_of_edges_witness :
  number_of_edges (add_routes routes empty_graph)
  = (number_of_edges empty_graph + length routes)%nat.
Proof.
  apply (add_routes_number_of_edges routes empty_graph).
  - reflexivity.
  - apply (bool_decide_unpack (NoDup (map pair_key routes))).
    vm_compute. reflexivity.
  - reflexivity.
Defined.

Lemma has_node_add_routes rs G n :
  has_node (add_routes rs G) n = true <->
  has_node G n = true \/
  exists u v t c d, (u, v, t, c, d) ∈ rs /\ (n = u \/ n = v).
Proof.
  revert G. induction rs as [|[[[[u v] t] c] d] rs IH]; intros G.
  - split; [by left|]. intros [H|(? & ? & ? & ? & ? & []%elem_of_nil & _)].
    done.
  - rewrite add_routes_cons, IH, has_node_add_edge, !orb_true_iff.
    rewrite !String.eqb_eq. split.
    + intros [[[H|H]|H]|(u' & v' & t' & c' & d' & Hin & H)].
      * by left.
      * right. exists u, v, t, c, d. split; [left|by left].
      * right. exists u, v, t, c, d. split; [left|by right].
      * right. exists u', v', t', c', d'. split; [by right|done].
    + intros [H|(u' & v' & t' & c' & d' & Hin & H)]; [by left; left; left|].
      apply elem_of_cons in Hin as [[= -> -> -> -> ->]|Hin].
      * left. destruct H; [left; by right|by right].
      * right. by exists u', v', t', c', d'.
Qed.

(** X18. The stops of the graph built from a list of routes are the stops
    the list mentions, each one once: these are the stops the Module 1 tab
    lists and the Module 2 tab offers as source and destination. *)
Theorem built_stops rs :
  NoDup (nodes (add_routes rs empty_graph)) /\
  forall n,
    n ∈ nodes (add_routes rs empty_graph) <->
    exists u v t c d, (u, v, t, c, d) ∈ rs /\ (n = u \/ n = v).
Proof.
  split.
  - pose proof (well_formed_add_routes rs _ well_formed_empty_graph) as Hwf.
    apply well_formed_spec in Hwf as (Hk & _ & _).
    by apply keys_unique_spec in Hk as [Hk _].
  - intros n. rewrite <- has_node_nodes, has_node_add_routes.
    split; [by intros [?|?]|by right].
Qed.
